(** * Transcribe: the action-extraction engine of [function_app.py]

    A shallow embedding of
    [src/azure-functions/transcribe-audio/function_app.py]:
    the rule-based extractor [extract_actions] (sentence splitting, the four
    rule blocks with their regular expressions, de-duplication by lowercased
    title) and the request validation of the HTTP handler
    [transcribe_audio].

    Python [str] values are modelled as lists of 8-bit characters, read as
    the code points U+0000..U+00FF (Latin-1); [str.lower], [str.isspace] and
    the regular-expression classes are given on that range as CPython
    defines them. *)

From Stdlib Require Import Ascii String ZArith.
From stdpp Require Import base option list gmap sets strings pretty.

Open Scope list_scope.

(** ** Characters and strings *)

Module Py.

Abbreviation str := (list ascii).

(** A string literal of the source, as a [str]. *)
Definition lit (s : string) : str := list_ascii_of_string s.

Definition code (c : ascii) : N := N_of_ascii c.

Definition in_range (lo hi : N) (c : ascii) : bool :=
  ((lo <=? code c) && (code c <=? hi))%N.

(** [str.isspace] on one character: TAB..CR, FS..US, SPACE, NEL, NBSP. *)
Definition isspace (c : ascii) : bool :=
  in_range 9 13 c || in_range 28 32 c
  || (code c =? 133)%N || (code c =? 160)%N.

(** [str.lower] on one character: A..Z, and the Latin-1 capitals
    U+00C0..U+00DE other than the multiplication sign U+00D7. *)
Definition lower_char (c : ascii) : ascii :=
  if in_range 65 90 c
     || (in_range 192 222 c && negb (code c =? 215)%N)
  then ascii_of_N (code c + 32)
  else c.

Definition lower (s : str) : str := map lower_char s.

(** [s.replace(old, new)] for one-character [old] and [new]. *)
Definition replace (old new : ascii) (s : str) : str :=
  map (fun c => if decide (c = old) then new else c) s.

(** [s.split(sep)] for a one-character separator: empty fields are kept,
    and the empty string gives one empty field. *)
Fixpoint split (sep : ascii) (s : str) : list str :=
  match s with
  | [] => [[]]
  | c :: s' =>
      if decide (c = sep) then [] :: split sep s'
      else match split sep s' with
           | field :: fields => (c :: field) :: fields
           | [] => [[c]]
           end
  end.

Fixpoint lstrip (s : str) : str :=
  match s with
  | c :: s' => if isspace c then lstrip s' else s
  | [] => []
  end.

Definition rstrip (s : str) : str := reverse (lstrip (reverse s)).

(** [s.strip()] *)
Definition strip (s : str) : str := rstrip (lstrip s).

Fixpoint startswith (p s : str) : bool :=
  match p, s with
  | [], _ => true
  | a :: p', b :: s' => bool_decide (a = b) && startswith p' s'
  | _ :: _, [] => false
  end.

(** [needle in hay] *)
Fixpoint contains (needle hay : str) : bool :=
  startswith needle hay
  || match hay with
     | [] => false
     | _ :: hay' => contains needle hay'
     end.

(** Truth value of a string: [not s] is [negb (truthy s)]. *)
Definition truthy (s : str) : bool :=
  match s with [] => false | _ :: _ => true end.

End Py.

(** ** Regular expressions

    The fragment of Python's [re] syntax that the four patterns of
    [extract_actions] are written in, with the backtracking semantics of
    [re.search]: alternatives are tried left to right, a greedy quantifier
    tries the longest repetition first and a lazy one the shortest, and the
    first start position that admits a match wins.  All four patterns have
    exactly one capture group. *)

Module Re.
Import Py.

(** Members of a bracketed character set. *)
Inductive item :=
| Range (lo hi : ascii)   (* lo-hi *)
| One (c : ascii).        (* a single character *)

(** Patterns that consume exactly one character. *)
Inductive atom :=
| Chr (c : ascii)             (* a literal character *)
| ChrI (c : ascii)            (* a literal character under re.IGNORECASE *)
| Set_ (items : list item)    (* [...] *)
| Space                       (* \s *)
| Dot.                        (* . *)

Inductive re :=
| Eps                                                        (* empty pattern *)
| Atom (a : atom)
| Eol                                                        (* $ *)
| Seq (r1 r2 : re)                                           (* r1r2 *)
| Alt (r1 r2 : re)                                           (* r1|r2 *)
| Opt (r : re)                                               (* (?:r)? *)
| Rep (a : atom) (lo : nat) (hi : option nat) (lazy : bool)  (* a{lo,hi} and a{lo,hi}? *)
| Group (r : re).                                            (* (r), group 1 *)

Definition item_ok (i : item) (c : ascii) : bool :=
  match i with
  | Range lo hi => in_range (code lo) (code hi) c
  | One d => bool_decide (c = d)
  end.

(** [ChrI] compares lowercase forms, which is what re.IGNORECASE does on
    the characters U+0000..U+00FF of [str].  On a Python [str] the flag
    also lets "s" match U+017F and "k" match U+212A; such characters lie
    outside [str] as modelled here. *)
Definition atom_ok (a : atom) (c : ascii) : bool :=
  match a with
  | Chr d => bool_decide (c = d)
  | ChrI d => bool_decide (lower_char c = lower_char d)
  | Set_ items => existsb (fun i => item_ok i c) items
  | Space => isspace c
  | Dot => negb (bool_decide (c = "010"%char))
  end.

(** A backtracking state: the input still to be read, and group 1. *)
Abbreviation st := (str * option str)%type.

Definition may_repeat (hi : option nat) : bool :=
  match hi with Some 0 => false | _ => true end.

(** The ways [a{lo,hi}] can match at the head of [s], in the order the
    backtracking matcher tries them. *)
Fixpoint rep (a : atom) (lo : nat) (hi : option nat) (lazy : bool)
    (s : str) (g : option str) {struct s} : list st :=
  let stop := match lo with 0 => [(s, g)] | S _ => [] end in
  let more :=
    match s with
    | c :: s' =>
        if atom_ok a c && may_repeat hi
        then rep a (pred lo) (pred <$> hi) lazy s' g
        else []
    | [] => []
    end in
  if lazy then stop ++ more else more ++ stop.

(** [$]: at the end of the string, or just before a final newline. *)
Definition at_eol (s : str) : bool :=
  match s with
  | [] => true
  | [c] => bool_decide (c = "010"%char)
  | _ => false
  end.

(** All the ways [r] can match at the head of [s], in priority order. *)
Fixpoint m (r : re) (s : str) (g : option str) : list st :=
  match r with
  | Eps => [(s, g)]
  | Atom a =>
      match s with
      | c :: s' => if atom_ok a c then [(s', g)] else []
      | [] => []
      end
  | Eol => if at_eol s then [(s, g)] else []
  | Seq r1 r2 => x ← m r1 s g; m r2 x.1 x.2
  | Alt r1 r2 => m r1 s g ++ m r2 s g
  | Opt r1 => m r1 s g ++ [(s, g)]
  | Rep a lo hi lazy => rep a lo hi lazy s g
  | Group r1 =>
      (fun x : st => (x.1, Some (take (length s - length x.1) s))) <$> m r1 s g
  end.

(** A match object, reduced to what the callers read: [group(1)], which is
    [None] when the group took no part in the match. *)
Record match_obj := Match { group1 : option str }.

(** [re.search(r, s)] *)
Fixpoint search (r : re) (s : str) : option match_obj :=
  match m r s None with
  | x :: _ => Some (Match x.2)
  | [] =>
      match s with
      | [] => None
      | _ :: s' => search r s'
      end
  end.

(** [c] occurs on every path through [r]. *)
Fixpoint requires (c : ascii) (r : re) : bool :=
  match r with
  | Atom (Chr d) => bool_decide (d = c)
  | Seq r1 r2 => requires c r1 || requires c r2
  | Alt r1 r2 => requires c r1 && requires c r2
  | Group r1 => requires c r1
  | _ => false
  end.

(** Every path through [r] goes through the capture group. *)
Fixpoint sets_group (r : re) : bool :=
  match r with
  | Group _ => true
  | Seq r1 r2 => sets_group r1 || sets_group r2
  | Alt r1 r2 => sets_group r1 && sets_group r2
  | _ => false
  end.

(** The words [r] matches, read off the pattern: [lang r w rest] says that
    [r] can consume [w] when [rest] follows it. *)
Fixpoint lang (r : re) (w rest : str) : Prop :=
  match r with
  | Eps => w = []
  | Atom a => ∃ c, w = [c] ∧ atom_ok a c = true
  | Eol => w = [] ∧ at_eol rest = true
  | Seq r1 r2 =>
      ∃ w1 w2, w = w1 ++ w2 ∧ lang r1 w1 (w2 ++ rest) ∧ lang r2 w2 rest
  | Alt r1 r2 => lang r1 w rest ∨ lang r2 w rest
  | Opt r1 => lang r1 w rest ∨ w = []
  | Rep a lo hi _ =>
      forallb (atom_ok a) w = true ∧ lo ≤ length w
      ∧ from_option (fun h => length w ≤ h) True hi
  | Group r1 => lang r1 w rest
  end.

(** Pattern-building shorthands. *)
Definition cat (rs : list re) : re := foldr Seq Eps rs.
Fixpoint alts (r : re) (rs : list re) : re :=
  match rs with
  | [] => r
  | r' :: rs' => Alt r (alts r' rs')
  end.
Definition word (w : string) : re := cat (Atom ∘ Chr <$> lit w).
Definition wordI (w : string) : re := cat (Atom ∘ ChrI <$> lit w).
Definition plus (a : atom) : re := Rep a 1 None false.

End Re.

(** ** Exceptions and loop control *)

(** Exceptions, with the message [str(e)] gives back. *)
Inductive exn :=
| AttributeError (msg : Py.str)
| ValueError (msg : Py.str)
| Exception (msg : Py.str).

Definition str_of_exn (e : exn) : Py.str :=
  match e with
  | AttributeError msg | ValueError msg | Exception msg => msg
  end.

(** What a method call on [None] raises. *)
Definition none_has_no (attr : string) : exn :=
  AttributeError
    (Py.lit "'NoneType' object has no attribute '" ++ Py.lit attr ++ Py.lit "'").

Inductive result (A : Type) :=
| Ok (a : A)
| Raise (e : exn).
Arguments Ok {A} a.
Arguments Raise {A} e.

#[export] Instance result_ret : MRet result := fun A a => Ok a.
#[export] Instance result_bind : MBind result := fun A B f r =>
  match r with
  | Ok a => f a
  | Raise e => Raise e
  end.

(** The outcome of one [if] block of the loop body: control reaches the
    next statement, or the block ran [continue], or it raised. *)
Inductive flow (A : Type) :=
| Next (a : A)
| Continue (a : A)
| Raised (e : exn).
Arguments Next {A} a.
Arguments Continue {A} a.
Arguments Raised {A} e.

(** Two statements in sequence: the second runs only when control falls
    out of the first. *)
Definition and_then {A} (b1 b2 : A → flow A) : A → flow A := fun a =>
  match b1 a with
  | Next a' => b2 a'
  | Continue a' => Continue a'
  | Raised e => Raised e
  end.
Infix ">>>" := and_then (at level 61, left associativity).

(** The end of the loop body, where the iteration is over either way. *)
Definition end_iteration {A} (f : flow A) : result A :=
  match f with
  | Next a | Continue a => Ok a
  | Raised e => Raise e
  end.

(** ** The extractor *)

Module Extract.
Import Py Re.

(** One entry of the [actions] list: the dict with the keys
    [action_type], [title], [description] and [metadata].  A metadata value
    is whatever [group(1)] returned, a [str] or [None]. *)
Record action := Action {
  action_type : str;
  title : str;
  description : str;
  metadata : gmap str (option str)
}.

(** [f'{x}'] for a value that is a [str] or [None]. *)
Definition fmt (x : option str) : str := default (lit "None") x.

Definition alnum : list item :=
  [Range "a" "z"; Range "A" "Z"; Range "0" "9"].
Definition upper1 : atom := Set_ [Range "A" "Z"].
Definition lower1 : atom := Set_ [Range "a" "z"].

(** [([a-zA-Z0-9._%+-]+@[a-zA-Z0-9.-]+\.[a-zA-Z]{2,})] *)
Definition email_re : re :=
  Group (cat [
    plus (Set_ (alnum ++ [One "."; One "_"; One "%"; One "+"; One "-"]));
    Atom (Chr "@");
    plus (Set_ (alnum ++ [One "."; One "-"]));
    Atom (Chr ".");
    Rep (Set_ [Range "a" "z"; Range "A" "Z"]) 2 None false ]).

(** [[A-Z][a-z]+(?:\s+[A-Z][a-z]+)?] *)
Definition name_re : re :=
  cat [ Atom upper1; plus lower1;
        Opt (cat [plus Space; Atom upper1; plus lower1]) ].

(** [(?:call|phone|ring)\s+([A-Z][a-z]+(?:\s+[A-Z][a-z]+)?)] *)
Definition call_re : re :=
  cat [ alts (word "call") [word "phone"; word "ring"];
        plus Space;
        Group name_re ].

(** [(?:meet(?:ing)?|schedule)\s+(?:with\s+)?([A-Z][a-z]+(?:\s+[A-Z][a-z]+)?)] *)
Definition meeting_re : re :=
  cat [ Alt (cat [word "meet"; Opt (word "ing")]) (word "schedule");
        plus Space;
        Opt (cat [word "with"; plus Space]);
        Group name_re ].

(** [(?:need to|should|must|have to)\s+(.{10,60}?)(?:\.|$)], compiled with
    [re.IGNORECASE] *)
Definition task_re : re :=
  cat [ alts (wordI "need to") [wordI "should"; wordI "must"; wordI "have to"];
        plus Space;
        Group (Rep Dot 10 (Some 60) true);
        Alt (Atom (ChrI ".")) Eol ].

Definition call_stoplist : list str :=
  [lit "the"; lit "a"; lit "my"; lit "our"; lit "them"; lit "back"].
Definition meeting_stoplist : list str :=
  [lit "the"; lit "a"; lit "my"; lit "our"].

Section LoopBody.
Variables (sentence lower : str).

(** Lines 188-198. *)
Definition email_block (actions : list action) : flow (list action) :=
  if contains (lit "email") lower || contains (lit "send") lower then
    match search email_re sentence with
    | Some email_match =>
        Continue (actions ++ [
          {| action_type := lit "email";
             title := lit "Email " ++ fmt (group1 email_match);
             description := sentence;
             metadata := {[ lit "recipient" := group1 email_match ]} |} ])
    | None => Next actions
    end
  else Next actions.

(** Lines 201-214. *)
Definition call_block (actions : list action) : flow (list action) :=
  if contains (lit "call") lower || contains (lit "phone") lower
     || contains (lit "ring") lower then
    match search call_re sentence with
    | Some name_match =>
        match group1 name_match with
        | None => Raised (none_has_no "lower")
        | Some name =>
            if negb (bool_decide (Py.lower name ∈ call_stoplist)) then
              Continue (actions ++ [
                {| action_type := lit "call";
                   title := lit "Call " ++ name;
                   description := sentence;
                   metadata := {[ lit "contact" := Some name ]} |} ])
            else Next actions
        end
    | None => Next actions
    end
  else Next actions.

(** Lines 217-229. *)
Definition meeting_block (actions : list action) : flow (list action) :=
  if contains (lit "meeting") lower || contains (lit "meet with") lower
     || contains (lit "schedule") lower then
    match search meeting_re sentence with
    | Some name_match =>
        match group1 name_match with
        | None => Raised (none_has_no "lower")
        | Some name =>
            if negb (bool_decide (Py.lower name ∈ meeting_stoplist)) then
              Continue (actions ++ [
                {| action_type := lit "meeting";
                   title := lit "Meeting with " ++ name;
                   description := sentence;
                   metadata := {[ lit "contact" := Some name ]} |} ])
            else Next actions
        end
    | None => Next actions
    end
  else Next actions.

(** Lines 232-242. *)
Definition task_block (actions : list action) : flow (list action) :=
  if existsb (fun x => contains x lower)
       [lit "need to"; lit "should"; lit "must"; lit "have to"] then
    match search task_re sentence with
    | Some task_match =>
        match group1 task_match with
        | None => Raised (none_has_no "strip")
        | Some g =>
            let task := strip g in
            Next (actions ++ [
              {| action_type := lit "task";
                 title := take 50 task;
                 description := sentence;
                 metadata := ∅ |} ])
        end
    | None => Next actions
    end
  else Next actions.
End LoopBody.

(** The body of the [for sentence in sentences] loop, lines 181-242. *)
Definition loop_body (actions : list action) (raw : str)
    : result (list action) :=
  let sentence := strip raw in
  if negb (truthy sentence) then Ok actions
  else
    let lower := Py.lower sentence in
    end_iteration (
      (email_block sentence lower >>> call_block sentence lower
       >>> meeting_block sentence lower >>> task_block sentence lower)
      actions).

Fixpoint for_sentences (actions : list action) (sentences : list str)
    : result (list action) :=
  match sentences with
  | [] => Ok actions
  | raw :: rest =>
      actions ← loop_body actions raw;
      for_sentences actions rest
  end.

(** The de-duplication loop, lines 245-251, from a given [seen] and
    [unique_actions]. *)
Fixpoint dedup_loop (seen : gset str) (unique_actions : list action)
    (actions : list action) : list action :=
  match actions with
  | [] => unique_actions
  | a :: rest =>
      let key := Py.lower (title a) in
      if decide (key ∈ seen) then dedup_loop seen unique_actions rest
      else dedup_loop ({[key]} ∪ seen) (unique_actions ++ [a]) rest
  end.

Definition deduplicate (actions : list action) : list action :=
  dedup_loop ∅ [] actions.

Definition sentences_of (transcript : str) : list str :=
  split "." (replace "?" "." (replace "!" "." transcript)).

Definition extract_actions (transcript : str) : result (list action) :=
  if negb (truthy transcript) then Ok []
  else
    actions ← for_sentences [] (sentences_of transcript);
    Ok (deduplicate actions).

End Extract.

(** ** The HTTP handler *)

Module Http.
Import Py.

Set Warnings "-register-all".
(** What [json.loads] returns.  A float is kept up to the one thing the
    handler reads of it, whether it is non-zero. *)
Inductive json :=
| JNull
| JBool (b : bool)
| JInt (z : Z)
| JFloat (nonzero : bool)
| JStr (s : str)
| JArr (l : list json)
| JObj (o : gmap str json).
Set Warnings "register-all".

(** Python truth value. *)
Definition json_truthy (v : json) : bool :=
  match v with
  | JNull => false
  | JBool b => b
  | JInt z => negb (z =? 0)%Z
  | JFloat nonzero => nonzero
  | JStr s => truthy s
  | JArr l => match l with [] => false | _ :: _ => true end
  | JObj o => negb (bool_decide (o = ∅))
  end.

Definition type_name (v : json) : string :=
  match v with
  | JNull => "NoneType"
  | JBool _ => "bool"
  | JInt _ => "int"
  | JFloat _ => "float"
  | JStr _ => "str"
  | JArr _ => "list"
  | JObj _ => "dict"
  end.

(** [v.get(key)]: [dict.get], with [None] for a missing key; the other
    JSON values have no [get] attribute. *)
Definition py_get (v : json) (key : str) : result json :=
  match v with
  | JObj o => Ok (default JNull (o !! key))
  | _ =>
      Raise (AttributeError
        (lit "'" ++ lit (type_name v) ++ lit "' object has no attribute 'get'"))
  end.

(** The request, reduced to what the handler reads: [req.get_json()], the
    parsed body, or the [ValueError] raised for a body that is not JSON. *)
Record HttpRequest := { get_json : result json }.

Record HttpResponse := {
  body : json;             (* the value handed to json.dumps *)
  status_code : Z;
  mimetype : str
}.

Definition json_response (b : json) (status : Z) : HttpResponse :=
  {| body := b; status_code := status; mimetype := lit "application/json" |}.

Section Handler.
(** Lines 44-82 and the clean-up of line 95: download, transcription
    and persistence, all through external collaborators; the transcript,
    or the exception raised on the way. *)
Variable process : json → json → result str.

(** The [try] block, lines 33-92. *)
Definition try_block (req : HttpRequest) : result HttpResponse :=
  req_body ← get_json req;
  recording_id ← py_get req_body (lit "recording_id");
  audio_url ← py_get req_body (lit "audio_url");
  if negb (json_truthy recording_id) || negb (json_truthy audio_url) then
    Ok (json_response
          (JObj {[ lit "error" := JStr (lit "Missing recording_id or audio_url") ]})
          400)
  else
    transcript ← process recording_id audio_url;
    Ok (json_response
          (JObj (<[ lit "success" := JBool true ]>
                 (<[ lit "recording_id" := recording_id ]>
                  {[ lit "transcript" := JStr transcript ]})))
          200).

Definition transcribe_audio (req : HttpRequest) : HttpResponse :=
  match try_block req with
  | Ok response => response
  | Raise e =>
      json_response (JObj {[ lit "error" := JStr (str_of_exn e) ]}) 500
  end.
End Handler.

End Http.

(** ** Speech recognition

    [transcribe_with_speech_sdk], lines 106-168.  The Speech SDK is an
    external collaborator: it delivers events to the three callbacks the
    function connects.  The callbacks are modelled as the state updates
    they perform, and a run of the recognizer as the list of events
    delivered, in order, before [' '.join(all_results)] is evaluated (or,
    when that line is never reached, all the events ever delivered). *)

Module Speech.
Import Py.

(** [speechsdk.ResultReason], as far as the code tells its values apart. *)
Inductive result_reason := RecognizedSpeech | NoMatch | OtherResult.

(** [speechsdk.CancellationReason] *)
Inductive cancellation_reason := Error | EndOfStream | CancelledByUser.

#[export] Instance result_reason_eq_dec : EqDecision result_reason.
Proof. solve_decision. Defined.

Inductive event :=
| Recognized (reason : result_reason) (text : str)   (* signal [recognized] *)
| SessionStopped                                      (* signal [session_stopped] *)
| Canceled (reason : cancellation_reason) (error_details : str).
                                                      (* signal [canceled] *)

(** The two variables the callbacks close over. *)
Record state := State { all_results : list str; done : bool }.

Definition initial : state := {| all_results := []; done := false |}.

Definition handle_result (st : state) (reason : result_reason) (text : str)
    : state :=
  if decide (reason = RecognizedSpeech)
  then {| all_results := all_results st ++ [text]; done := done st |}
  else st.

Definition handle_session_stopped (st : state) : state :=
  {| all_results := all_results st; done := true |}.

Definition handle_canceled (st : state) (reason : cancellation_reason)
    (error_details : str) : state :=
  {| all_results := all_results st; done := true |}.

(** The callback connected to the signal of an event. *)
Definition deliver (st : state) (ev : event) : state :=
  match ev with
  | Recognized reason text => handle_result st reason text
  | SessionStopped => handle_session_stopped st
  | Canceled reason details => handle_canceled st reason details
  end.

(** The events that end the wait of line 159. *)
Definition is_terminal (ev : event) : bool :=
  match ev with
  | SessionStopped | Canceled _ _ => true
  | Recognized _ _ => false
  end.

(** The texts of the results recognized as speech, in order. *)
Definition recognized_texts (events : list event) : list str :=
  omap (fun ev => match ev with
                  | Recognized RecognizedSpeech text => Some text
                  | _ => None
                  end) events.

(** [sep.join(parts)] *)
Fixpoint join (sep : str) (parts : list str) : str :=
  match parts with
  | [] => []
  | [part] => part
  | part :: rest => part ++ sep ++ join sep rest
  end.

(** What a call can come to: it returns, it raises, or it never comes
    back (the wait loop of line 159 spinning for ever). *)
Inductive outcome (A : Type) :=
| Returns (a : A)
| Raises (e : exn)
| Hangs.
Arguments Returns {A} a.
Arguments Raises {A} e.
Arguments Hangs {A}.

Definition of_result {A} (r : result A) : outcome A :=
  match r with
  | Ok a => Returns a
  | Raise e => Raises e
  end.

(** Truth value of an environment variable read with [os.environ.get]. *)
Definition env_truthy (v : option str) : bool :=
  match v with
  | Some s => truthy s
  | None => false
  end.

(** Lines 109-168, given what the SDK did: [Raise] when one of its calls
    raised, else the events it delivered. *)
Definition transcribe_with_speech_sdk (SPEECH_KEY : option str)
    (sdk : result (list event)) : outcome str :=
  if negb (env_truthy SPEECH_KEY) then
    Raises (Exception (lit "Azure Speech key not configured"))
  else
    match sdk with
    | Raise e => Raises e
    | Ok events =>
        let st := foldl deliver initial events in
        if done st then Returns (join (lit " ") (all_results st))
        else Hangs
    end.

End Speech.

(** ** Processing a recording

    Lines 44-95 of [transcribe_audio]: download, temporary file,
    transcription, persistence and clean-up.  The outside world is a record
    of what each collaborator answers; the program yields its outcome and
    the calls it made, in order.

    Every collaborator other than the recognizer is taken to answer: its
    call returns or raises.  A call that never returns is outside this
    model; in particular [requests.get] at line 47 is given no timeout, so
    a server that stops sending can hold the handler there as well. *)

Module Pipeline.
Import Py Extract Http Speech.

(** A row handed to [supabase.table('actions').insert]: an extracted
    action with the three keys lines 77-79 add to it. *)
Record row := Row {
  base : action;
  recording_id : json;
  user_id : json;
  status : str
}.

Record env := Env {
  SPEECH_KEY : option str;
  SUPABASE_URL : option str;
  SUPABASE_KEY : option str;
  (* requests.get(audio_url): status_code and content *)
  requests_get : json → result (Z * str);
  (* NamedTemporaryFile(suffix='.webm', delete=False), write, name *)
  write_temp : str → result str;
  (* what the Speech SDK does for the file at a path: one of its calls
     raises, or it delivers events *)
  recognize : str → result (list event);
  (* create_client, then update(...).eq('id', recording_id).execute() *)
  db_update : json → str → result unit;
  (* select('user_id').eq('id', recording_id).single().execute(), then
     recording.data.get('user_id') *)
  db_user_id : json → result json;
  (* table('actions').insert(actions).execute() *)
  db_insert : list row → result unit;
  (* os.unlink(temp_path) *)
  unlink : str → result unit
}.

(** A call to a collaborator. *)
Inductive call :=
| Get (audio_url : json)
| WriteTemp (content : str)
| Transcribe (audio_path : str)     (* transcribe_with_speech_sdk, line 58 *)
| Update (recording_id : json) (transcript : str)
| SelectUser (recording_id : json)
| Insert (rows : list row)
| Unlink (temp_path : str).

(** A program: its outcome, and the calls it made. *)
Definition prog (A : Type) : Type := outcome A * list call.

#[export] Instance prog_ret : MRet prog := fun A a => (Returns a, []).
#[export] Instance prog_bind : MBind prog := fun A B f p =>
  match p with
  | (Returns a, calls) =>
      match f a with
      | (o, calls') => (o, calls ++ calls')
      end
  | (Raises e, calls) => (Raises e, calls)
  | (Hangs, calls) => (Hangs, calls)
  end.

Definition raise {A} (e : exn) : prog A := (Raises e, []).

(** A collaborator is called and answers. *)
Definition invoke {A} (c : call) (answer : outcome A) : prog A :=
  (answer, [c]).

(** [try: body finally: cleanup] *)
Definition try_finally {A} (body : prog A) (cleanup : prog unit) : prog A :=
  match body with
  | (Hangs, calls) => (Hangs, calls)
  | (o, calls) =>
      match cleanup with
      | (Returns _, calls') => (o, calls ++ calls')
      | (Raises e, calls') => (Raises e, calls ++ calls')
      | (Hangs, calls') => (Hangs, calls ++ calls')
      end
  end.

(** [try: body except Exception as e: handler(e)] *)
Definition try_except {A} (body : prog A) (handler : exn → A) : prog A :=
  match body with
  | (Raises e, calls) => (Returns (handler e), calls)
  | _ => body
  end.

(** Lines 76-79. *)
Definition annotate (recording_id user_id : json) (actions : list action)
    : list row :=
  (fun a => {| base := a; recording_id := recording_id;
               user_id := user_id; status := lit "pending" |}) <$> actions.

(** The request passes the check of line 37 with these two values. *)
Definition accepted (req : HttpRequest) (recording_id audio_url : json)
    : Prop :=
  ∃ o : gmap str json,
    get_json req = Ok (JObj o)
    ∧ o !! lit "recording_id" = Some recording_id
    ∧ o !! lit "audio_url" = Some audio_url
    ∧ json_truthy recording_id = true ∧ json_truthy audio_url = true.

Section Process.
Variable E : env.

(** Lines 61-82. *)
Definition store (recording_id : json) (transcript : str) : prog unit :=
  if env_truthy (SUPABASE_URL E) && env_truthy (SUPABASE_KEY E) then
    _ ← invoke (Update recording_id transcript)
          (of_result (db_update E recording_id transcript));
    if truthy transcript then
      actions ← (of_result (extract_actions transcript), []);
      match actions with
      | _ :: _ =>
          user_id ← invoke (SelectUser recording_id)
                      (of_result (db_user_id E recording_id));
          invoke (Insert (annotate recording_id user_id actions))
            (of_result (db_insert E (annotate recording_id user_id actions)))
      | [] => mret ()
      end
    else mret ()
  else mret ().

(** Lines 44-95: the transcript of the recording. *)
Definition process_recording (recording_id audio_url : json) : prog str :=
  audio_response ← invoke (Get audio_url)
                     (of_result (requests_get E audio_url));
  if negb (audio_response.1 =? 200)%Z then
    raise (Exception (lit "Failed to download audio: "
                      ++ lit (pretty audio_response.1)))
  else
    temp_path ← invoke (WriteTemp audio_response.2)
                  (of_result (write_temp E audio_response.2));
    try_finally
      (transcript ← invoke (Transcribe temp_path)
                      (transcribe_with_speech_sdk (SPEECH_KEY E)
                         (recognize E temp_path));
       _ ← store recording_id transcript;
       mret transcript)
      (invoke (Unlink temp_path) (of_result (unlink E temp_path))).

(** The whole handler, lines 32-103. *)
Definition handle (req : HttpRequest) : prog HttpResponse :=
  try_except
    (req_body ← (of_result (get_json req), []);
     recording_id ← (of_result (py_get req_body (lit "recording_id")), []);
     audio_url ← (of_result (py_get req_body (lit "audio_url")), []);
     if negb (json_truthy recording_id) || negb (json_truthy audio_url) then
       mret (json_response
               (JObj {[ lit "error" :=
                          JStr (lit "Missing recording_id or audio_url") ]})
               400)
     else
       transcript ← process_recording recording_id audio_url;
       mret (json_response
               (JObj (<[ lit "success" := JBool true ]>
                      (<[ lit "recording_id" := recording_id ]>
                       {[ lit "transcript" := JStr transcript ]})))
               200))
    (fun e => json_response (JObj {[ lit "error" := JStr (str_of_exn e) ]}) 500).
End Process.

(** Collaborators for worked examples: the download answers with the
    given status, the recognizer delivers the given events, the store is
    configured or not, and the insert works or raises. *)
Definition sample_env (status : Z) (key : option str) (events : list event)
    (supabase : option str) (insert_ok : bool) : env :=
  {| SPEECH_KEY := key;
     SUPABASE_URL := supabase;
     SUPABASE_KEY := supabase;
     requests_get := fun _ => Ok (status, lit "RIFF");
     write_temp := fun _ => Ok (lit "/tmp/tmpab12.webm");
     recognize := fun _ => Ok events;
     db_update := fun _ _ => Ok ();
     db_user_id := fun _ => Ok (JStr (lit "user-7"));
     db_insert := fun _ =>
       if insert_ok then Ok () else Raise (Exception (lit "insert failed"));
     unlink := fun _ => Ok () |}.

Definition sample_request : HttpRequest :=
  {| get_json :=
       Ok (JObj (<[ lit "recording_id" := JStr (lit "rec-1") ]>
                 {[ lit "audio_url" := JStr (lit "https://x/a.webm") ]})) |}.

Definition sample_events : list event :=
  [ Recognized RecognizedSpeech (lit "Please call Sarah tomorrow.");
    Recognized NoMatch (lit "");
    Recognized RecognizedSpeech (lit "I must finish the budget report.");
    SessionStopped ].

End Pipeline.

(** ** The rules as the specification words them

    Section 4.2 describes each rule as a function from a sentence to an
    optional candidate, and the loop body as the first rule that succeeds;
    section 4.3 describes de-duplication as keeping first occurrences.
    These definitions follow that wording, to be compared with the code. *)

Module Spec.
Import Py Re Extract.

Definition email_rule (sentence : str) : option action :=
  let lower := Py.lower sentence in
  if contains (lit "email") lower || contains (lit "send") lower then
    matched ← search email_re sentence;
    address ← group1 matched;
    Some {| action_type := lit "email";
            title := lit "Email " ++ address;
            description := sentence;
            metadata := {[ lit "recipient" := Some address ]} |}
  else None.

Definition call_rule (sentence : str) : option action :=
  let lower := Py.lower sentence in
  if contains (lit "call") lower || contains (lit "phone") lower
     || contains (lit "ring") lower then
    matched ← search call_re sentence;
    name ← group1 matched;
    if bool_decide (Py.lower name ∈ call_stoplist) then None
    else Some {| action_type := lit "call";
                 title := lit "Call " ++ name;
                 description := sentence;
                 metadata := {[ lit "contact" := Some name ]} |}
  else None.

Definition meeting_rule (sentence : str) : option action :=
  let lower := Py.lower sentence in
  if contains (lit "meeting") lower || contains (lit "meet with") lower
     || contains (lit "schedule") lower then
    matched ← search meeting_re sentence;
    name ← group1 matched;
    if bool_decide (Py.lower name ∈ meeting_stoplist) then None
    else Some {| action_type := lit "meeting";
                 title := lit "Meeting with " ++ name;
                 description := sentence;
                 metadata := {[ lit "contact" := Some name ]} |}
  else None.

Definition task_rule (sentence : str) : option action :=
  let lower := Py.lower sentence in
  if contains (lit "need to") lower || contains (lit "should") lower
     || contains (lit "must") lower || contains (lit "have to") lower then
    matched ← search task_re sentence;
    text ← group1 matched;
    Some {| action_type := lit "task";
            title := take 50 (strip text);
            description := sentence;
            metadata := ∅ |}
  else None.

(** The first rule, in the order given, that yields a candidate. *)
Fixpoint first_match (rules : list (str → option action)) (sentence : str)
    : option action :=
  match rules with
  | [] => None
  | rule :: rules' =>
      match rule sentence with
      | Some a => Some a
      | None => first_match rules' sentence
      end
  end.

Definition rules : list (str → option action) :=
  [email_rule; call_rule; meeting_rule; task_rule].

(** A word starting with an uppercase letter followed by lowercase
    letters. *)
Definition is_cap_word (w : str) : bool :=
  match w with
  | u :: ls =>
      in_range 65 90 u && negb (bool_decide (ls = []))
      && forallb (in_range 97 122) ls
  | [] => false
  end.

(** One such word, or two with whitespace between them. *)
Definition cap_name (name : str) : Prop :=
  ∃ w1, is_cap_word w1 = true ∧
    (name = w1 ∨
     ∃ ws w2, name = w1 ++ ws ++ w2 ∧ ws ≠ [] ∧ forallb isspace ws = true
              ∧ is_cap_word w2 = true).

(** *** The Call rule's extraction, read from left to right

    Section 4.2 has the rule extract a name "following the keyword
    call/phone/ring, matching one or two consecutive capitalized words (a
    word starting with an uppercase letter followed by lowercase letters,
    optionally followed by whitespace and a second such word)".  An
    executable reading by a scan of the sentence, in which only whitespace
    stands between the keyword and the name. *)









(** The four variants of [action_type]. *)
Definition action_types : list str :=
  [lit "email"; lit "call"; lit "meeting"; lit "task"].

(** The metadata keys of each variant. *)
Definition metadata_keys (ty : str) : gset str :=
  if decide (ty = lit "email") then {[ lit "recipient" ]}
  else if decide (ty = lit "call") then {[ lit "contact" ]}
  else if decide (ty = lit "meeting") then {[ lit "contact" ]}
  else ∅.

(** The uniqueness key of a candidate. *)
Definition key (a : action) : str := Py.lower (title a).

(** The candidates no earlier candidate shares a key with, in order. *)
Definition first_occurrences (l : list action) : list action :=
  omap (fun i =>
          a ← l !! i;
          if decide (key a ∈ key <$> take i l) then None else Some a)
       (seq 0 (length l)).

End Spec.

(** * Properties *)

Import Py Re Extract.

(** ** Strings *)

Example split_example :
  split "." (lit "a.b.") = [lit "a"; lit "b"; lit ""].
Proof. reflexivity. Qed.

Example strip_example : strip (lit "  a b ") = lit "a b".
Proof. reflexivity. Qed.

Example lower_example : lower (lit "Call Bob") = lit "call bob".
Proof. reflexivity. Qed.

Section StringFacts.
Implicit Types (s w : str) (c : ascii).

Lemma split_no_sep sep s field : field ∈ split sep s → sep ∉ field.
Proof.
  revert field. induction s as [|c s IH]; simpl; intros field Hin.
  - apply list_elem_of_singleton in Hin as ->. by intros ?%elem_of_nil.
  - case_decide as Hc.
    + apply elem_of_cons in Hin as [->|Hin]; [by intros ?%elem_of_nil|auto].
    + destruct (split sep s) as [|f fs] eqn:E.
      * apply list_elem_of_singleton in Hin as ->.
        intros [->|[]%elem_of_nil]%elem_of_cons. done.
      * apply elem_of_cons in Hin as [->|Hin].
        -- intros [->|Hf]%elem_of_cons; [done|].
           by apply (IH f); [left|].
        -- apply IH. by right.
Qed.

Lemma split_without_sep sep s : sep ∉ s → split sep s = [s].
Proof.
  induction s as [|c s IH]; simpl; [done|]. intros Hn.
  apply not_elem_of_cons in Hn as [Hc Hs].
  rewrite decide_False by done. by rewrite IH.
Qed.

Lemma replace_same old new s :
  old ∉ s → replace old new s = s.
Proof.
  induction s as [|c s IH]; simpl; [done|]. intros Hn.
  apply not_elem_of_cons in Hn as [Hc Hs].
  rewrite decide_False by done. by rewrite IH.
Qed.

Lemma lstrip_suffix s : lstrip s `suffix_of` s.
Proof.
  induction s as [|c s IH]; simpl; [done|].
  destruct (isspace c); [by apply suffix_cons_r|done].
Qed.

Lemma lstrip_head s c s' : lstrip s = c :: s' → isspace c = false.
Proof.
  induction s as [|d s IH]; simpl; [done|].
  destruct (isspace d) eqn:E; [done|]. by intros [= <- _].
Qed.

Lemma lstrip_spaces s : forallb isspace s = true → lstrip s = [].
Proof.
  induction s as [|c s IH]; simpl; [done|].
  intros [-> ?]%andb_prop. auto.
Qed.

Lemma lstrip_snoc s c : isspace c = false → lstrip (s ++ [c]) = lstrip s ++ [c].
Proof.
  intros Hc. induction s as [|d s IH]; simpl; [by rewrite Hc|].
  by destruct (isspace d).
Qed.

Lemma strip_elem s c : c ∈ strip s → c ∈ s.
Proof.
  unfold strip, rstrip. intros Hin.
  rewrite elem_of_reverse in Hin.
  destruct (lstrip_suffix (reverse (lstrip s))) as [k1 E1].
  assert (c ∈ reverse (lstrip s)) as Hin'.
  { rewrite E1. apply elem_of_app. by right. }
  rewrite elem_of_reverse in Hin'.
  destruct (lstrip_suffix s) as [k2 E2].
  rewrite E2. apply elem_of_app. by right.
Qed.

Lemma strip_last s c : last (strip s) = Some c → isspace c = false.
Proof.
  unfold strip, rstrip. rewrite last_reverse.
  destruct (lstrip (reverse (lstrip s))) as [|d t] eqn:E; [done|].
  intros [= ->]. by apply lstrip_head in E.
Qed.

Lemma strip_spaces s : forallb isspace s = true → strip s = [].
Proof. intros H. unfold strip. by rewrite lstrip_spaces. Qed.

Lemma strip_snoc s c : isspace c = false → strip (s ++ [c]) = lstrip s ++ [c].
Proof.
  intros Hc. unfold strip, rstrip. rewrite lstrip_snoc by done.
  rewrite reverse_snoc. simpl. rewrite Hc.
  by rewrite reverse_cons, reverse_involutive.
Qed.
End StringFacts.

(** ** The matcher *)

Section MatcherFacts.
Implicit Types (r : re) (a : atom) (s w : str) (g : option str) (x : st).

Lemma elem_of_rep a lo hi lazy s g x :
  x ∈ rep a lo hi lazy s g →
  x.2 = g ∧ ∃ w, s = w ++ x.1 ∧ forallb (atom_ok a) w = true
                ∧ lo ≤ length w ∧ from_option (fun h => length w ≤ h) True hi.
Proof.
  revert lo hi. induction s as [|c s IH]; intros lo hi Hin; simpl in Hin.
  - assert (x ∈ match lo with 0 => [(@nil ascii, g)] | S _ => [] end) as Hx.
    { destruct lazy; by rewrite ?app_nil_r, ?app_nil_l in Hin. }
    destruct lo; [|by apply elem_of_nil in Hx].
    apply list_elem_of_singleton in Hx as ->. split; [done|].
    exists []. repeat split; [lia|]. destruct hi; simpl; [lia|done].
  - assert (x ∈ match lo with 0 => [(c :: s, g)] | S _ => [] end
            ∨ x ∈ (if atom_ok a c && may_repeat hi
                   then rep a (pred lo) (pred <$> hi) lazy s g else []))
      as [Hx|Hx].
    { destruct lazy; apply elem_of_app in Hin; tauto. }
    + destruct lo; [|by apply elem_of_nil in Hx].
      apply list_elem_of_singleton in Hx as ->. split; [done|].
      exists []. repeat split; [lia|]. destruct hi; simpl; [lia|done].
    + destruct (atom_ok a c) eqn:Hc; [|by apply elem_of_nil in Hx].
      destruct (may_repeat hi) eqn:Hr; [|by apply elem_of_nil in Hx].
      simpl in Hx. apply IH in Hx as (Hg & w & Hs & Hw & Hlo & Hhi).
      split; [done|]. exists (c :: w). simpl. rewrite Hc, Hw, <- Hs.
      repeat split; [lia|].
      destruct hi as [[|h]|]; simpl in *; [done|lia|done].
Qed.

Lemma m_suffix r s g x : x ∈ m r s g → x.1 `suffix_of` s.
Proof.
  revert s g x. induction r as [| a | | r1 IH1 r2 IH2 | r1 IH1 r2 IH2
                                | r1 IH1 | a lo hi lazy | r1 IH1];
    intros s g x Hin; simpl in Hin.
  - by apply list_elem_of_singleton in Hin as ->.
  - destruct s as [|c s]; [by apply elem_of_nil in Hin|].
    destruct (atom_ok a c); [|by apply elem_of_nil in Hin].
    apply list_elem_of_singleton in Hin as ->. by apply suffix_cons_r.
  - destruct (at_eol s); [|by apply elem_of_nil in Hin].
    by apply list_elem_of_singleton in Hin as ->.
  - apply list_elem_of_bind in Hin as (y & Hx & Hy).
    etrans; [by eapply IH2|by eapply IH1].
  - apply elem_of_app in Hin as [Hin|Hin]; eauto.
  - apply elem_of_app in Hin as [Hin|Hin]; [eauto|].
    by apply list_elem_of_singleton in Hin as ->.
  - apply elem_of_rep in Hin as (_ & w & Hs & _). by exists w.
  - apply list_elem_of_fmap in Hin as (y & -> & Hy). simpl. eauto.
Qed.

Lemma m_requires c r s g x : requires c r = true → x ∈ m r s g → c ∈ s.
Proof.
  revert s g x. induction r as [| a | | r1 IH1 r2 IH2 | r1 IH1 r2 IH2
                                | r1 IH1 | a lo hi lazy | r1 IH1];
    intros s g x Hreq Hin; simpl in Hreq, Hin; try done.
  - destruct a as [d| | | |]; try done.
    apply bool_decide_eq_true in Hreq as ->.
    destruct s as [|e s]; [by apply elem_of_nil in Hin|].
    unfold atom_ok in Hin.
    destruct (bool_decide (e = c)) eqn:E; [|by apply elem_of_nil in Hin].
    apply bool_decide_eq_true in E as ->. by left.
  - apply list_elem_of_bind in Hin as (y & Hx & Hy).
    apply orb_prop in Hreq as [Hreq|Hreq]; [by eapply IH1|].
    destruct (m_suffix _ _ _ _ Hy) as [k ->].
    apply elem_of_app. right. by eapply IH2.
  - apply andb_prop in Hreq as [H1 H2].
    apply elem_of_app in Hin as [Hin|Hin]; eauto.
  - apply list_elem_of_fmap in Hin as (y & -> & Hy). eauto.
Qed.

Lemma m_keeps_group r s g x : x ∈ m r s g → is_Some g → is_Some x.2.
Proof.
  revert s g x. induction r as [| a | | r1 IH1 r2 IH2 | r1 IH1 r2 IH2
                                | r1 IH1 | a lo hi lazy | r1 IH1];
    intros s g x Hin Hg; simpl in Hin.
  - by apply list_elem_of_singleton in Hin as ->.
  - destruct s as [|c s]; [by apply elem_of_nil in Hin|].
    destruct (atom_ok a c); [|by apply elem_of_nil in Hin].
    by apply list_elem_of_singleton in Hin as ->.
  - destruct (at_eol s); [|by apply elem_of_nil in Hin].
    by apply list_elem_of_singleton in Hin as ->.
  - apply list_elem_of_bind in Hin as (y & Hx & Hy). eauto.
  - apply elem_of_app in Hin as [Hin|Hin]; eauto.
  - apply elem_of_app in Hin as [Hin|Hin]; [eauto|].
    by apply list_elem_of_singleton in Hin as ->.
  - apply elem_of_rep in Hin as (-> & _). done.
  - apply list_elem_of_fmap in Hin as (y & -> & Hy). by eexists.
Qed.

Lemma m_sets_group r s g x : sets_group r = true → x ∈ m r s g → is_Some x.2.
Proof.
  revert s g x. induction r as [| a | | r1 IH1 r2 IH2 | r1 IH1 r2 IH2
                                | r1 IH1 | a lo hi lazy | r1 IH1];
    intros s g x Hset Hin; simpl in Hset, Hin; try done.
  - apply list_elem_of_bind in Hin as (y & Hx & Hy).
    apply orb_prop in Hset as [Hset|Hset]; [|eauto].
    eapply m_keeps_group; eauto.
  - apply andb_prop in Hset as [H1 H2].
    apply elem_of_app in Hin as [Hin|Hin]; eauto.
  - apply list_elem_of_fmap in Hin as (y & -> & Hy). by eexists.
Qed.

Lemma m_lang r s g x : x ∈ m r s g → ∃ w, s = w ++ x.1 ∧ lang r w x.1.
Proof.
  revert s g x. induction r as [| a | | r1 IH1 r2 IH2 | r1 IH1 r2 IH2
                                | r1 IH1 | a lo hi lazy | r1 IH1];
    intros s g x Hin; simpl in Hin.
  - apply list_elem_of_singleton in Hin as ->. by exists [].
  - destruct s as [|c s]; [by apply elem_of_nil in Hin|].
    destruct (atom_ok a c) eqn:Hc; [|by apply elem_of_nil in Hin].
    apply list_elem_of_singleton in Hin as ->. exists [c]. simpl. eauto.
  - destruct (at_eol s) eqn:He; [|by apply elem_of_nil in Hin].
    apply list_elem_of_singleton in Hin as ->. by exists [].
  - apply list_elem_of_bind in Hin as (y & Hx & Hy).
    apply IH1 in Hy as (w1 & -> & H1). apply IH2 in Hx as (w2 & E & H2).
    exists (w1 ++ w2). rewrite E in *. rewrite <- app_assoc.
    split; [done|]. simpl. eauto.
  - apply elem_of_app in Hin as [Hin|Hin].
    + apply IH1 in Hin as (w & -> & H). exists w. simpl. eauto.
    + apply IH2 in Hin as (w & -> & H). exists w. simpl. eauto.
  - apply elem_of_app in Hin as [Hin|Hin].
    + apply IH1 in Hin as (w & -> & H). exists w. simpl. eauto.
    + apply list_elem_of_singleton in Hin as ->. exists []. simpl. eauto.
  - apply elem_of_rep in Hin as (_ & w & -> & H). by exists w.
  - apply list_elem_of_fmap in Hin as (y & -> & Hy).
    apply IH1 in Hy as (w & -> & H). by exists w.
Qed.

(** The group captures exactly what its pattern consumed. *)
Lemma m_group r s g x :
  x ∈ m (Group r) s g → ∃ w, s = w ++ x.1 ∧ x.2 = Some w ∧ lang r w x.1.
Proof.
  simpl. intros (y & -> & Hy)%list_elem_of_fmap.
  apply m_lang in Hy as (w & -> & H). exists w. simpl.
  repeat split; [|done]. f_equal.
  rewrite length_app, Nat.add_sub. by rewrite take_app_length.
Qed.

Lemma m_seq r1 r2 s g x :
  x ∈ m (Seq r1 r2) s g → ∃ y, y ∈ m r1 s g ∧ x ∈ m r2 y.1 y.2.
Proof. simpl. intros (y & ? & ?)%list_elem_of_bind. eauto. Qed.

(** A successful search matched at some suffix of the input. *)
Lemma search_sound r s mo :
  search r s = Some mo →
  ∃ pre suf x, s = pre ++ suf ∧ x ∈ m r suf None ∧ group1 mo = x.2.
Proof.
  induction s as [|c s IH]; simpl.
  - destruct (m r [] None) as [|x xs] eqn:E; [done|]. intros [= <-].
    exists [], [], x. rewrite E. repeat split. by left.
  - destruct (m r (c :: s) None) as [|x xs] eqn:E.
    + intros (pre & suf & x & -> & Hx & Hg)%IH.
      by exists (c :: pre), suf, x.
    + intros [= <-]. exists [], (c :: s), x. rewrite E.
      repeat split. by left.
Qed.

Lemma search_requires c r s mo :
  requires c r = true → search r s = Some mo → c ∈ s.
Proof.
  intros Hreq (pre & suf & x & -> & Hx & _)%search_sound.
  apply elem_of_app. right. by eapply m_requires.
Qed.

Lemma search_sets_group r s mo :
  sets_group r = true → search r s = Some mo → is_Some (group1 mo).
Proof.
  intros Hset (pre & suf & x & -> & Hx & ->)%search_sound.
  by eapply m_sets_group.
Qed.
End MatcherFacts.

(** ** The loop body and the rules *)

Section BlockFacts.
Implicit Types (sentence raw : str) (actions : list action).

Lemma email_block_rule sentence actions :
  email_block sentence (Py.lower sentence) actions =
    match Spec.email_rule sentence with
    | Some a => Continue (actions ++ [a])
    | None => Next actions
    end.
Proof.
  unfold email_block, Spec.email_rule. simpl.
  destruct (_ || _); [|done].
  destruct (search email_re sentence) as [mo|] eqn:E; [|done]. simpl.
  destruct (search_sets_group email_re sentence mo eq_refl E) as [g Hg].
  by rewrite Hg.
Qed.

Lemma call_block_rule sentence actions :
  call_block sentence (Py.lower sentence) actions =
    match Spec.call_rule sentence with
    | Some a => Continue (actions ++ [a])
    | None => Next actions
    end.
Proof.
  unfold call_block, Spec.call_rule. simpl.
  destruct (_ || _); [|done].
  destruct (search call_re sentence) as [mo|] eqn:E; [|done]. simpl.
  destruct (search_sets_group call_re sentence mo eq_refl E) as [g Hg].
  rewrite Hg. simpl. by destruct (bool_decide _).
Qed.

Lemma meeting_block_rule sentence actions :
  meeting_block sentence (Py.lower sentence) actions =
    match Spec.meeting_rule sentence with
    | Some a => Continue (actions ++ [a])
    | None => Next actions
    end.
Proof.
  unfold meeting_block, Spec.meeting_rule. simpl.
  destruct (_ || _); [|done].
  destruct (search meeting_re sentence) as [mo|] eqn:E; [|done]. simpl.
  destruct (search_sets_group meeting_re sentence mo eq_refl E) as [g Hg].
  rewrite Hg. simpl. by destruct (bool_decide _).
Qed.

Lemma task_block_rule sentence actions :
  task_block sentence (Py.lower sentence) actions =
    Next (actions ++ option_list (Spec.task_rule sentence)).
Proof.
  unfold task_block, Spec.task_rule. simpl.
  rewrite orb_false_r, !orb_assoc.
  destruct (_ || _); [|by rewrite app_nil_r].
  destruct (search task_re sentence) as [mo|] eqn:E; [|by rewrite app_nil_r].
  simpl.
  destruct (search_sets_group task_re sentence mo eq_refl E) as [g Hg].
  by rewrite Hg.
Qed.

Lemma rules_of_empty : Spec.first_match Spec.rules [] = None.
Proof. reflexivity. Qed.

(** One iteration appends what the first successful rule yields. *)
Lemma loop_body_first_match actions raw :
  loop_body actions raw =
    Ok (actions ++ option_list (Spec.first_match Spec.rules (strip raw))).
Proof.
  unfold loop_body.
  destruct (strip raw) as [|c s] eqn:E; simpl negb; cbv iota.
  { by rewrite rules_of_empty, app_nil_r. }
  unfold and_then.
  rewrite email_block_rule. unfold Spec.rules, Spec.first_match.
  destruct (Spec.email_rule _); [done|].
  rewrite call_block_rule. destruct (Spec.call_rule _); [done|].
  rewrite meeting_block_rule. destruct (Spec.meeting_rule _); [done|].
  rewrite task_block_rule. by destruct (Spec.task_rule _).
Qed.

Lemma for_sentences_first_match actions sentences :
  for_sentences actions sentences =
    Ok (actions ++
        omap (fun raw => Spec.first_match Spec.rules (strip raw)) sentences).
Proof.
  revert actions. induction sentences as [|raw rest IH]; intros actions.
  - simpl. by rewrite app_nil_r.
  - cbn [for_sentences]. rewrite loop_body_first_match.
    unfold mbind, result_bind. rewrite IH, <- app_assoc. do 2 f_equal.
    unfold omap. cbn [list_omap].
    by destruct (Spec.first_match Spec.rules (strip raw)).
Qed.
End BlockFacts.

(** ** De-duplication *)

Section DedupFacts.
Implicit Types (seen : gset str) (l u : list action) (a : action) (k : str).

Lemma dedup_loop_acc seen u l :
  dedup_loop seen u l = u ++ dedup_loop seen [] l.
Proof.
  revert seen u. induction l as [|a l IH]; intros seen u; simpl.
  - by rewrite app_nil_r.
  - case_decide; [done|].
    rewrite (IH _ (u ++ [a])), (IH _ ([] ++ [a])).
    by rewrite <- app_assoc.
Qed.

Lemma dedup_loop_cons seen a l :
  dedup_loop seen [] (a :: l) =
    if decide (Spec.key a ∈ seen) then dedup_loop seen [] l
    else a :: dedup_loop ({[Spec.key a]} ∪ seen) [] l.
Proof.
  simpl. fold (Spec.key a). case_decide; [done|].
  by rewrite dedup_loop_acc.
Qed.

Lemma dedup_loop_sublist seen l : sublist (dedup_loop seen [] l) l.
Proof.
  revert seen. induction l as [|a l IH]; intros seen.
  - constructor.
  - rewrite dedup_loop_cons. case_decide.
    + by apply sublist_cons.
    + by apply sublist_skip.
Qed.

Lemma dedup_loop_keys seen l k :
  k ∈ Spec.key <$> dedup_loop seen [] l →
  (k ∉ seen) ∧ k ∈ Spec.key <$> l.
Proof.
  revert seen. induction l as [|a l IH]; intros seen.
  - simpl. by intros ?%elem_of_nil.
  - rewrite dedup_loop_cons. case_decide as Hin.
    + intros [? ?]%IH. split; [done|]. rewrite fmap_cons. by right.
    + rewrite !fmap_cons. intros [->|[Hk ?]%IH]%elem_of_cons.
      * split; [done|]. by left.
      * split; [|by right]. intros ?. apply Hk, elem_of_union. by right.
Qed.

Lemma dedup_loop_NoDup seen l : NoDup (Spec.key <$> dedup_loop seen [] l).
Proof.
  revert seen. induction l as [|a l IH]; intros seen.
  - constructor.
  - rewrite dedup_loop_cons. case_decide as Hin; [done|].
    rewrite fmap_cons. constructor; [|done].
    intros [Hk _]%dedup_loop_keys.
  apply Hk, elem_of_union. left. by apply elem_of_singleton.
Qed.

Lemma dedup_loop_filter seen l k :
  filter (fun a => Spec.key a = k) (dedup_loop seen [] l) =
    if decide (k ∈ seen) then []
    else take 1 (filter (fun a => Spec.key a = k) l).
Proof.
  revert seen. induction l as [|a l IH]; intros seen.
  - simpl. by case_decide.
  - rewrite dedup_loop_cons. case_decide as Hin.
    + rewrite IH. case_decide as Hk; [done|].
      rewrite (filter_cons_False _ a); [done|]. congruence.
    + destruct (decide (Spec.key a = k)) as [<-|Hne].
      * rewrite !filter_cons_True by done. rewrite IH.
        rewrite decide_True, decide_False; [done..|].
        apply elem_of_union. left. by apply elem_of_singleton.
      * rewrite !filter_cons_False by done. rewrite IH.
        destruct (decide (k ∈ seen)) as [Hk|Hk].
        -- rewrite decide_True; [done|]. apply elem_of_union. by right.
        -- rewrite decide_False; [done|].
           by intros [?%elem_of_singleton|?]%elem_of_union.
Qed.

(** From a [seen] set that holds the keys of what came before, the loop
    keeps the candidates the specification's wording keeps. *)
Lemma dedup_loop_first_occurrences seen (before l : list action) :
  (∀ k, k ∈ seen ↔ k ∈ Spec.key <$> before) →
  dedup_loop seen [] l =
    omap (fun i =>
            a ← (before ++ l) !! i;
            if decide (Spec.key a ∈ Spec.key <$> take i (before ++ l))
            then None else Some a)
         (seq (length before) (length l)).
Proof.
  revert seen before. induction l as [|a l IH]; intros seen before Hseen.
  - done.
  - rewrite dedup_loop_cons. cbn [length seq].
    unfold omap at 1. cbn [list_omap].
    rewrite list_lookup_middle by done. simpl mbind.
    rewrite take_app_length.
    assert (before ++ a :: l = (before ++ [a]) ++ l) as Happ
      by by rewrite <- app_assoc.
    assert (S (length before) = length (before ++ [a])) as Hlen
      by (rewrite length_app; simpl; lia).
    destruct (decide (Spec.key a ∈ seen)) as [Hin|Hin].
    + rewrite decide_True by by apply Hseen.
      rewrite Happ, Hlen. apply IH. intros k.
      rewrite fmap_app, elem_of_app, <- Hseen.
      change (Spec.key <$> [a]) with [Spec.key a].
      rewrite list_elem_of_singleton.
      split; [tauto|]. by intros [?| ->].
    + rewrite decide_False by by rewrite <- Hseen.
      f_equal. rewrite Happ, Hlen. apply IH. intros k.
      rewrite fmap_app, elem_of_app, <- Hseen, elem_of_union.
      change (Spec.key <$> [a]) with [Spec.key a].
      rewrite elem_of_singleton, list_elem_of_singleton. tauto.
Qed.
End DedupFacts.

(** ** What the rules produce *)

Section RuleFacts.
Implicit Types (sentence raw s : str) (a : action).

Lemma sentence_no_dot transcript raw :
  raw ∈ sentences_of transcript → "."%char ∉ strip raw.
Proof.
  unfold sentences_of. intros Hin%split_no_sep Hdot%strip_elem. done.
Qed.

Lemma email_rule_no_dot s : "."%char ∉ s → Spec.email_rule s = None.
Proof.
  intros Hdot. unfold Spec.email_rule. simpl.
  destruct (_ || _); [|done].
  destruct (search email_re s) as [mo|] eqn:E; [|done].
  by apply (search_requires "."%char) in E.
Qed.

Lemma lower_char_dot c : lower_char c = "."%char → c = "."%char.
Proof.
  destruct c as [[] [] [] [] [] [] [] []]; vm_compute;
    first [done | intros; discriminate].
Qed.

(** In a sentence without a full stop the task pattern can only end at
    the end of the sentence, so its group is a tail of the sentence. *)
Lemma task_capture_tail s mo :
  "."%char ∉ s →
  (∀ c, last s = Some c → isspace c = false) →
  search task_re s = Some mo →
  ∃ pre g, group1 mo = Some g ∧ s = pre ++ g ∧ 10 ≤ length g.
Proof.
  intros Hdot Hlast (pre & suf & x & -> & Hx & Hg)%search_sound.
  unfold task_re, cat in Hx. cbn [foldr] in Hx.
  apply m_seq in Hx as (y1 & Hy1 & Hx).
  apply m_seq in Hx as (y2 & Hy2 & Hx).
  apply m_seq in Hx as (y3 & Hy3 & Hx).
  apply m_seq in Hx as (y4 & Hy4 & Hx).
  apply list_elem_of_singleton in Hx as ->. simpl in Hg.
  apply m_suffix in Hy1 as [k1 E1]. apply m_suffix in Hy2 as [k2 E2].
  apply m_group in Hy3 as (g & E3 & Hg3 & Hrep).
  destruct Hrep as (_ & Hlen & _).
  assert (y4.2 = Some g ∧ (y3.1 = [] ∨ ∃ c, c ∈ y3.1 ∧ lower_char c = "."%char
                           ∨ y3.1 = ["010"%char])) as [Hg4 Hend].
  { simpl in Hy4. apply elem_of_app in Hy4 as [Hy4|Hy4].
    - destruct y3.1 as [|c rest]; [by apply elem_of_nil in Hy4|].
      destruct (bool_decide _) eqn:Hc; [|by apply elem_of_nil in Hy4].
      apply list_elem_of_singleton in Hy4 as ->. split; [done|].
      right. exists c. left. split; [by left|].
      by apply bool_decide_eq_true in Hc.
    - destruct (at_eol y3.1) eqn:He; [|by apply elem_of_nil in Hy4].
      apply list_elem_of_singleton in Hy4 as ->. split; [done|].
      destruct y3.1 as [|c [|d rest]]; [by left| |done].
      right. exists c. right. simpl in He.
      by apply bool_decide_eq_true in He as ->. }
  rewrite Hg, Hg4. rewrite E1, E2, E3 in *.
  destruct Hend as [Hnil|(c & [[Hin Hc]|Hnl])].
  - exists (pre ++ k1 ++ k2), g. rewrite Hnil, app_nil_r, <- !app_assoc. done.
  - apply lower_char_dot in Hc as ->. exfalso. apply Hdot.
    rewrite !elem_of_app. auto.
  - exfalso. rewrite Hnl in Hlast.
    specialize (Hlast "010"%char). rewrite !app_assoc, last_snoc in Hlast.
    by specialize (Hlast eq_refl).
Qed.

Lemma task_title_nonempty s a :
  "."%char ∉ s →
  (∀ c, last s = Some c → isspace c = false) →
  Spec.task_rule s = Some a →
  action_type a = lit "task" ∧ title a ≠ [] ∧ metadata a = ∅.
Proof.
  intros Hdot Hlast. unfold Spec.task_rule. simpl.
  destruct (_ || _); [|done].
  destruct (search task_re s) as [mo|] eqn:E; [|done]. simpl.
  destruct (task_capture_tail _ _ Hdot Hlast E) as (pre & g & -> & -> & Hlen).
  simpl. intros [= <-]. simpl. repeat split.
  destruct (decide (g = [])) as [->|Hne]; [simpl in Hlen; lia|].
  destruct (exists_last Hne) as (g' & c & ->).
  assert (isspace c = false) as Hc.
  { apply Hlast. by rewrite app_assoc, last_snoc. }
  rewrite strip_snoc by done.
  destruct (lstrip g'); done.
Qed.

Lemma call_rule_shape s a :
  Spec.call_rule s = Some a →
  action_type a = lit "call" ∧ title a ≠ []
  ∧ dom (metadata a) = {[ lit "contact" ]}.
Proof.
  unfold Spec.call_rule. simpl. destruct (_ || _); [|done].
  destruct (search call_re s) as [[[name|]]|]; simpl; try done.
  destruct (bool_decide _); [done|]. intros [= <-]. simpl.
  by rewrite dom_singleton_L.
Qed.

Lemma meeting_rule_shape s a :
  Spec.meeting_rule s = Some a →
  action_type a = lit "meeting" ∧ title a ≠ []
  ∧ dom (metadata a) = {[ lit "contact" ]}.
Proof.
  unfold Spec.meeting_rule. simpl. destruct (_ || _); [|done].
  destruct (search meeting_re s) as [[[name|]]|]; simpl; try done.
  destruct (bool_decide _); [done|]. intros [= <-]. simpl.
  by rewrite dom_singleton_L.
Qed.

Lemma email_rule_shape s a :
  Spec.email_rule s = Some a →
  action_type a = lit "email" ∧ title a ≠ []
  ∧ dom (metadata a) = {[ lit "recipient" ]}.
Proof.
  unfold Spec.email_rule. simpl. destruct (_ || _); [|done].
  destruct (search email_re s) as [[[address|]]|]; simpl; try done.
  intros [= <-]. simpl. by rewrite dom_singleton_L.
Qed.

(** The candidates of a transcript, before de-duplication. *)
Lemma extract_actions_candidates transcript :
  ∃ candidates,
    for_sentences [] (sentences_of transcript) = Ok candidates
    ∧ extract_actions transcript = Ok (deduplicate candidates)
    ∧ ∀ a, a ∈ candidates →
        ∃ raw, raw ∈ sentences_of transcript
               ∧ Spec.first_match Spec.rules (strip raw) = Some a.
Proof.
  eexists. split; [apply for_sentences_first_match|]. split.
  - unfold extract_actions. destruct transcript as [|c t]; [done|].
    cbn [truthy negb]. by rewrite for_sentences_first_match.
  - intros a Hin. rewrite app_nil_l in Hin.
    apply list_elem_of_omap in Hin as (raw & ? & ?). eauto.
Qed.
End RuleFacts.

(** ** The Call pattern *)

Section CallFacts.
Implicit Types (w rest name : str).

Lemma lang_chars (cs : str) w rest :
  lang (cat (Atom ∘ Chr <$> cs)) w rest → w = cs.
Proof.
  revert w. induction cs as [|c cs IH]; intros w; simpl; [done|].
  intros (w1 & w2 & -> & (d & -> & Hd) & Hrest).
  apply bool_decide_eq_true in Hd as ->. simpl. f_equal. by apply IH.
Qed.

Lemma upper1_ok c : atom_ok upper1 c = in_range 65 90 c.
Proof. unfold atom_ok, upper1. cbn [existsb item_ok]. apply orb_false_r. Qed.

Lemma lower1_ok c : atom_ok lower1 c = in_range 97 122 c.
Proof. unfold atom_ok, lower1. cbn [existsb item_ok]. apply orb_false_r. Qed.

Lemma lang_cap_word u ls :
  atom_ok upper1 u = true → forallb (atom_ok lower1) ls = true →
  1 ≤ length ls → Spec.is_cap_word (u :: ls) = true.
Proof.
  rewrite upper1_ok. intros Hu Hls Hlen. unfold Spec.is_cap_word.
  assert (forallb (in_range 97 122) ls = true) as ->.
  { clear -Hls. induction ls as [|l ls IH]; [done|].
    cbn [forallb] in *. apply andb_prop in Hls as [Hl Hls].
    rewrite <- lower1_ok, Hl. auto. }
  rewrite Hu. destruct ls; [simpl in Hlen; lia|done].
Qed.

Lemma lang_name_re name rest : lang name_re name rest → Spec.cap_name name.
Proof.
  unfold name_re, cat. cbn [foldr lang plus].
  intros (w1 & w2 & -> & (u & -> & Hu) & w3 & w4 & -> & (Hls & Hlen & _)
          & w5 & w6 & -> & Hopt & ->).
  exists (u :: w3). split; [by apply lang_cap_word|].
  rewrite app_nil_r.
  destruct Hopt as [(ws & w7 & -> & (Hws & Hwslen & _) & x1 & x2 & ->
                     & (u2 & -> & Hu2) & x3 & x4 & -> & (Hls2 & Hlen2 & _)
                     & ->)| ->].
  - right. exists ws, (u2 :: x3). rewrite app_nil_r.
    repeat split; [|done|by apply lang_cap_word].
    intros ->. simpl in Hwslen. lia.
  - left. by rewrite app_nil_r.
Qed.

Lemma call_re_shape suf x :
  x ∈ m call_re suf None →
  ∃ kw ws name,
    suf = kw ++ ws ++ name ++ x.1 ∧ x.2 = Some name
    ∧ kw ∈ [lit "call"; lit "phone"; lit "ring"]
    ∧ ws ≠ [] ∧ forallb isspace ws = true ∧ Spec.cap_name name.
Proof.
  unfold call_re, cat. cbn [foldr alts]. intros Hx.
  apply m_seq in Hx as (y1 & Hy1 & Hx).
  apply m_seq in Hx as (y2 & Hy2 & Hx).
  apply m_seq in Hx as (y3 & Hy3 & Hx).
  apply list_elem_of_singleton in Hx as ->.
  apply m_lang in Hy1 as (kw & -> & Hkw).
  apply m_lang in Hy2 as (ws & E2 & Hws & Hwslen & _).
  apply m_group in Hy3 as (name & E3 & Hg & Hname).
  exists kw, ws, name. rewrite E2, E3. repeat split; [done| | |done|].
  - destruct Hkw as [->%lang_chars|[->%lang_chars| ->%lang_chars]].
    + by left.
    + by right; left.
    + by right; right; left.
  - intros ->. simpl in Hwslen. lia.
  - by eapply lang_name_re.
Qed.
End CallFacts.

(** ** The Call pattern, exactly

    The first result of the backtracking matcher on the Call pattern is
    what a left-to-right scan finds. *)

Section CallExact.
Implicit Types (s w : str) (g : option str) (x : st) (p : ascii → bool).






















(** *** A keyword followed by a name is found *)












End CallExact.

(** ** Worked examples *)

Example search_two_word_name :
  search call_re (lit "please call Sarah Johnson now")
    = Some (Match (Some (lit "Sarah Johnson"))).
Proof. vm_compute. reflexivity. Qed.

Example search_task_window :
  search task_re
    (lit "I need to finish the quarterly budget report by Friday")
    = Some (Match (Some (lit "finish the quarterly budget report by Friday"))).
Proof. vm_compute. reflexivity. Qed.

(** The patterns are matched against the original sentence, so a keyword
    with a capital letter passes the gate but is not found by the
    pattern. *)
Example keyword_at_sentence_start :
  search call_re (lit "Call Sarah Johnson tomorrow morning") = None
  ∧ extract_actions (lit "Call Sarah Johnson tomorrow morning.") = Ok [].
Proof. split; vm_compute; reflexivity. Qed.

Example meeting_then_call :
  extract_actions
    (lit "Schedule a meeting with Bob Smith next week. Also call Bob Smith.")
  = Ok [ {| action_type := lit "meeting";
            title := lit "Meeting with Bob Smith";
            description := lit "Schedule a meeting with Bob Smith next week";
            metadata := {[ lit "contact" := Some (lit "Bob Smith") ]} |};
         {| action_type := lit "call";
            title := lit "Call Bob Smith";
            description := lit "Also call Bob Smith";
            metadata := {[ lit "contact" := Some (lit "Bob Smith") ]} |} ].
Proof. vm_compute. reflexivity. Qed.

Example repeated_call_kept_once :
  extract_actions (lit "please call Bob Smith! Then ring Bob Smith?")
  = Ok [ {| action_type := lit "call";
            title := lit "Call Bob Smith";
            description := lit "please call Bob Smith";
            metadata := {[ lit "contact" := Some (lit "Bob Smith") ]} |} ].
Proof. vm_compute. reflexivity. Qed.

(** * The claims *)

Import Http.

(** C1 (as the code has it).  The specification's Example 1 expects one
    Email action for "Please email john.doe@example.com about the report.".
    The code splits the transcript on full stops before any rule runs, so
    the address is cut into "john", "doe@example" and "com ..."; no piece
    matches the e-mail pattern and the result is the empty list. *)
Theorem example1_email_is_lost :
  sentences_of (lit "Please email john.doe@example.com about the report.")
    = [lit "Please email john"; lit "doe@example";
       lit "com about the report"; lit ""]
  ∧ search email_re (lit "Please email john") = None
  ∧ extract_actions
      (lit "Please email john.doe@example.com about the report.") = Ok [].
Proof. repeat split; vm_compute; reflexivity. Qed.

(** C2.  No transcript ever yields an action of type email: the sentences
    handed to the rules carry no full stop, the e-mail pattern needs one,
    so its search fails on every sentence and the Email rule never
    succeeds. *)
Theorem no_email_action (transcript : str) :
  (∀ raw, raw ∈ sentences_of transcript →
     ("."%char ∉ strip raw) ∧ search email_re (strip raw) = None)
  ∧ (∀ actions a,
       extract_actions transcript = Ok actions →
       a ∈ actions → action_type a ≠ lit "email").
Proof.
  split.
  - intros raw Hdot%sentence_no_dot. split; [done|].
    destruct (search email_re (strip raw)) as [mo|] eqn:E; [|done].
    by apply (search_requires "."%char) in E.
  - intros actions a Hex Hin.
    destruct (extract_actions_candidates transcript)
      as (cands & _ & Hex' & Hcands).
    rewrite Hex' in Hex. injection Hex as <-.
    assert (a ∈ cands) as Ha.
    { by apply (sublist_subseteq _ _ (dedup_loop_sublist ∅ cands)). }
    apply Hcands in Ha as (raw & Hdot%sentence_no_dot & Hrule).
    unfold Spec.rules, Spec.first_match in Hrule.
    rewrite email_rule_no_dot in Hrule by done.
    destruct (Spec.call_rule _) eqn:E1.
    { injection Hrule as <-. by apply call_rule_shape in E1 as (-> & _). }
    destruct (Spec.meeting_rule _) eqn:E2.
    { injection Hrule as <-. by apply meeting_rule_shape in E2 as (-> & _). }
    destruct (Spec.task_rule (strip raw)) eqn:E3; [|done].
    injection Hrule as <-. unfold Spec.task_rule in E3. simpl in E3.
    destruct (_ || _); [|done].
    destruct (search task_re (strip raw)) as [[[g|]]|]; simpl in E3; try done.
    by injection E3 as <-.
Qed.

Lemma no_email_action_witness :
  (("."%char ∉ strip (lit " Mail a@b"))
   ∧ search email_re (strip (lit " Mail a@b")) = None)
  ∧ action_type
      {| action_type := lit "call"; title := lit "Call Sarah";
         description := lit "please call Sarah about sending it";
         metadata := {[ lit "contact" := Some (lit "Sarah") ]} |}
    ≠ lit "email".
Proof.
  split.
  - apply (proj1 (no_email_action (lit "Send it. Mail a@b.co"))
             (lit " Mail a@b")).
    vm_compute. right. left.
  - apply (proj2 (no_email_action
                    (lit "please call Sarah about sending it. ok"))
             [ {| action_type := lit "call"; title := lit "Call Sarah";
                  description := lit "please call Sarah about sending it";
                  metadata := {[ lit "contact" := Some (lit "Sarah") ]} |} ]).
    + vm_compute. reflexivity.
    + apply list_elem_of_singleton. reflexivity.
Defined.




(** C4 (as the code has it).  A body that parses to a JSON object in which
    recording_id or audio_url is missing or falsy is answered with status
    400 and the body {error: "Missing recording_id or audio_url"}.  A body
    that is not valid JSON, or that parses to something other than an
    object, raises inside the [try] block and is answered by the catch-all
    handler with status 500 and {error: str(e)}. *)
Theorem malformed_request_responses
    (process : json → json → result str) (req : HttpRequest) :
  (∀ o : gmap str json,
     get_json req = Ok (JObj o) →
     (∀ v, o !! lit "recording_id" = Some v → json_truthy v = false)
     ∨ (∀ v, o !! lit "audio_url" = Some v → json_truthy v = false) →
     transcribe_audio process req =
       json_response
         (JObj {[ lit "error" := JStr (lit "Missing recording_id or audio_url") ]})
         400)
  ∧ (∀ e, get_json req = Raise e →
       transcribe_audio process req =
         json_response (JObj {[ lit "error" := JStr (str_of_exn e) ]}) 500)
  ∧ (∀ v, get_json req = Ok v → (∀ o, v ≠ JObj o) →
       ∃ msg, transcribe_audio process req =
                json_response (JObj {[ lit "error" := JStr msg ]}) 500).
Proof.
  repeat split.
  - intros o Hbody Hmissing. unfold transcribe_audio, try_block.
    rewrite Hbody. unfold mbind, result_bind, py_get.
    assert (negb (json_truthy (default JNull (o !! lit "recording_id")))
            || negb (json_truthy (default JNull (o !! lit "audio_url")))
            = true) as ->; [|done].
    apply orb_true_iff.
    destruct Hmissing as [H|H]; [left|right]; apply negb_true_iff.
    + destruct (o !! lit "recording_id") as [v|]; simpl; auto.
    + destruct (o !! lit "audio_url") as [v|]; simpl; auto.
  - intros e Hbody. unfold transcribe_audio, try_block. by rewrite Hbody.
  - intros v Hbody Hobj. unfold transcribe_audio, try_block.
    rewrite Hbody. simpl.
    destruct v; try (by eexists). by destruct (Hobj o).
Qed.

Lemma malformed_request_responses_witness :
  transcribe_audio (fun _ _ => Ok [])
    {| get_json :=
         Ok (JObj {[ lit "audio_url" := JStr (lit "https://x/a.webm") ]}) |}
  = json_response
      (JObj {[ lit "error" := JStr (lit "Missing recording_id or audio_url") ]})
      400
  ∧ transcribe_audio (fun _ _ => Ok [])
      {| get_json := Raise (ValueError (lit "Expecting value")) |}
    = json_response (JObj {[ lit "error" := JStr (lit "Expecting value") ]}) 500
  ∧ ∃ msg, transcribe_audio (fun _ _ => Ok [])
             {| get_json := Ok (JStr (lit "abc")) |}
           = json_response (JObj {[ lit "error" := JStr msg ]}) 500.
Proof.
  split; [|split].
  - apply (proj1 (malformed_request_responses (fun _ _ => Ok [])
             {| get_json :=
                  Ok (JObj {[ lit "audio_url" := JStr (lit "https://x/a.webm") ]}) |})
             {[ lit "audio_url" := JStr (lit "https://x/a.webm") ]}).
    + reflexivity.
    + left. intros v Hv. vm_compute in Hv. discriminate.
  - apply (proj1 (proj2 (malformed_request_responses (fun _ _ => Ok [])
             {| get_json := Raise (ValueError (lit "Expecting value")) |}))
             (ValueError (lit "Expecting value"))).
    reflexivity.
  - apply (proj2 (proj2 (malformed_request_responses (fun _ _ => Ok [])
             {| get_json := Ok (JStr (lit "abc")) |}))
             (JStr (lit "abc"))).
    + reflexivity.
    + intros o. discriminate.
Defined.

(** C4, the claim as stated fails: a body that is not valid JSON gets
    status 500, not 400, and so does a JSON body that is not an object. *)
Lemma invalid_json_gives_500 :
  status_code
    (transcribe_audio (fun _ _ => Ok [])
       {| get_json := Raise (ValueError (lit "Expecting value")) |}) = 500%Z
  ∧ body
      (transcribe_audio (fun _ _ => Ok [])
         {| get_json := Raise (ValueError (lit "Expecting value")) |})
    = JObj {[ lit "error" := JStr (lit "Expecting value") ]}
  ∧ status_code
      (transcribe_audio (fun _ _ => Ok []) {| get_json := Ok (JArr []) |})
    = 500%Z.
Proof. repeat split. Qed.

(** C5.  One iteration of the loop appends at most one candidate: the one
    of the first rule, in the order Email, Call, Meeting, Task, that
    succeeds on the trimmed sentence.  A rule whose pattern search fails
    passes the sentence on to the rules after it, whatever its keyword
    gate said. *)
Theorem loop_body_first_rule_wins (actions : list action) (raw : str) :
  let sentence := strip raw in
  let lower := Py.lower sentence in
  loop_body actions raw =
    Ok (actions ++
        option_list
          (Spec.first_match
             [Spec.email_rule; Spec.call_rule; Spec.meeting_rule;
              Spec.task_rule] sentence))
  ∧ (∃ added, loop_body actions raw = Ok (actions ++ added)
              ∧ length added ≤ 1)
  ∧ (search email_re sentence = None →
       email_block sentence lower actions = Next actions
       ∧ Spec.first_match Spec.rules sentence =
           Spec.first_match
             [Spec.call_rule; Spec.meeting_rule; Spec.task_rule] sentence)
  ∧ (search call_re sentence = None →
       call_block sentence lower actions = Next actions
       ∧ Spec.first_match
           [Spec.call_rule; Spec.meeting_rule; Spec.task_rule] sentence =
         Spec.first_match [Spec.meeting_rule; Spec.task_rule] sentence)
  ∧ (search meeting_re sentence = None →
       meeting_block sentence lower actions = Next actions
       ∧ Spec.first_match [Spec.meeting_rule; Spec.task_rule] sentence =
         Spec.first_match [Spec.task_rule] sentence).
Proof.
  intros sentence lower. split; [apply loop_body_first_match|].
  split.
  { eexists. split; [apply loop_body_first_match|].
    destruct (Spec.first_match _ _); simpl; lia. }
  repeat split.
  - unfold email_block. rewrite H. by destruct (_ || _).
  - unfold Spec.rules, Spec.first_match, Spec.email_rule. simpl.
    fold sentence. rewrite H. by destruct (_ || _).
  - unfold call_block. rewrite H. by destruct (_ || _).
  - unfold Spec.first_match, Spec.call_rule. simpl.
    fold sentence. rewrite H. by destruct (_ || _).
  - unfold meeting_block. rewrite H. by destruct (_ || _).
  - unfold Spec.first_match, Spec.meeting_rule. simpl.
    fold sentence. rewrite H. by destruct (_ || _).
Qed.

Lemma loop_body_first_rule_wins_witness :
  let sentence :=
    lit "I must send the meeting notes and call them back today" in
  let lower :=
    lit "i must send the meeting notes and call them back today" in
  (email_block sentence lower [] = Next []
   ∧ Spec.first_match Spec.rules sentence =
       Spec.first_match
         [Spec.call_rule; Spec.meeting_rule; Spec.task_rule] sentence)
  ∧ (call_block sentence lower [] = Next []
     ∧ Spec.first_match
         [Spec.call_rule; Spec.meeting_rule; Spec.task_rule] sentence =
       Spec.first_match [Spec.meeting_rule; Spec.task_rule] sentence)
  ∧ (meeting_block sentence lower [] = Next []
     ∧ Spec.first_match [Spec.meeting_rule; Spec.task_rule] sentence =
       Spec.first_match [Spec.task_rule] sentence).
Proof.
  intros sentence lower.
  destruct (loop_body_first_rule_wins []
              (lit " I must send the meeting notes and call them back today "))
    as (_ & _ & Hemail & Hcall & Hmeeting).
  split; [|split].
  - apply Hemail. vm_compute. reflexivity.
  - apply Hcall. vm_compute. reflexivity.
  - apply Hmeeting. vm_compute. reflexivity.
Defined.

(** C6.  De-duplication keeps, for every lowercased title, exactly the
    first candidate bearing it, in the order the candidates came in; what
    [extract_actions] returns is the de-duplicated list of the candidates
    of its sentences. *)
Theorem deduplicate_keeps_first_occurrences (actions : list action) :
  deduplicate actions = Spec.first_occurrences actions
  ∧ sublist (deduplicate actions) actions
  ∧ NoDup (Spec.key <$> deduplicate actions)
  ∧ (∀ k, filter (fun a => Spec.key a = k) (deduplicate actions) =
           take 1 (filter (fun a => Spec.key a = k) actions))
  ∧ (∀ transcript, ∃ candidates,
       for_sentences [] (sentences_of transcript) = Ok candidates
       ∧ extract_actions transcript = Ok (deduplicate candidates)).
Proof.
  unfold deduplicate. repeat split.
  - apply (dedup_loop_first_occurrences ∅ []). intros k.
    split; [by intros ?%elem_of_empty|by intros ?%elem_of_nil].
  - apply dedup_loop_sublist.
  - apply dedup_loop_NoDup.
  - intros k. rewrite dedup_loop_filter.
    by rewrite decide_False by apply not_elem_of_empty.
  - intros transcript.
    destruct (extract_actions_candidates transcript) as (cands & ? & ? & _).
    by exists cands.
Qed.

(** C7.  Every action [extract_actions] returns has a non-empty title, one
    of the four action types, and the metadata keys of its type:
    recipient for email, contact for call and meeting, none for task. *)
Theorem actions_well_formed (transcript : str) (actions : list action) a :
  extract_actions transcript = Ok actions →
  a ∈ actions →
  title a ≠ []
  ∧ action_type a ∈ Spec.action_types
  ∧ dom (metadata a) = Spec.metadata_keys (action_type a).
Proof.
  intros Hex Hin.
  destruct (extract_actions_candidates transcript)
    as (cands & _ & Hex' & Hcands).
  rewrite Hex' in Hex. injection Hex as <-.
  apply (sublist_subseteq _ _ (dedup_loop_sublist ∅ cands)) in Hin.
  apply Hcands in Hin as (raw & Hdot%sentence_no_dot & Hrule).
  unfold Spec.rules, Spec.first_match in Hrule.
  destruct (Spec.email_rule _) eqn:E0.
  { injection Hrule as <-. apply email_rule_shape in E0 as (-> & ? & ->).
    split; [done|]. split; [by left|done]. }
  destruct (Spec.call_rule _) eqn:E1.
  { injection Hrule as <-. apply call_rule_shape in E1 as (-> & ? & ->).
    split; [done|]. split; [by right; left|done]. }
  destruct (Spec.meeting_rule _) eqn:E2.
  { injection Hrule as <-. apply meeting_rule_shape in E2 as (-> & ? & ->).
    split; [done|]. split; [by right; right; left|done]. }
  destruct (Spec.task_rule (strip raw)) eqn:E3; [|done].
  injection Hrule as <-.
  apply task_title_nonempty in E3 as (-> & ? & ->);
    [|done|apply strip_last].
  split; [done|]. split; [by right; right; right; left|].
  by rewrite dom_empty_L.
Qed.

Lemma actions_well_formed_witness :
  let a := {| action_type := lit "task";
              title := lit "finish the quarterly budget report by Friday";
              description :=
                lit "I need to finish the quarterly budget report by Friday";
              metadata := ∅ |} in
  title a ≠ []
  ∧ action_type a ∈ Spec.action_types
  ∧ dom (metadata a) = Spec.metadata_keys (action_type a).
Proof.
  intros a.
  apply (actions_well_formed
           (lit "I need to finish the quarterly budget report by Friday.")
           [a] a).
  - vm_compute. reflexivity.
  - apply list_elem_of_singleton. reflexivity.
Defined.

(** C8.  A transcript that is empty or made of whitespace only gives the
    empty list. *)
Theorem blank_transcript_no_actions (transcript : str) :
  forallb isspace transcript = true → extract_actions transcript = Ok [].
Proof.
  intros Hsp. unfold extract_actions.
  destruct (negb (truthy transcript)); [done|].
  assert (∀ d, isspace d = false → d ∉ transcript) as Hno.
  { intros d Hd Hin. rewrite forallb_forall in Hsp.
    apply list_elem_of_In, Hsp in Hin. congruence. }
  unfold sentences_of.
  rewrite (replace_same "!" "." transcript) by by apply Hno.
  rewrite (replace_same "?" "." transcript) by by apply Hno.
  rewrite split_without_sep by by apply Hno.
  rewrite for_sentences_first_match. unfold omap. cbn [list_omap].
  rewrite strip_spaces by done. by rewrite rules_of_empty.
Qed.

Lemma blank_transcript_no_actions_witness :
  extract_actions [" "; "009"; "010"; " "]%char = Ok [].
Proof.
  apply (blank_transcript_no_actions [" "; "009"; "010"; " "]%char).
  vm_compute. reflexivity.
Defined.

(** C9.  [extract_actions] returns a list on every transcript: the one
    exception its code could raise, a method call on an unset group, never
    happens, since each pattern sets its group on every path; and every
    loop of the model is a structural recursion, so it terminates. *)
Theorem extract_actions_total (transcript : str) :
  ∃ actions, extract_actions transcript = Ok actions.
Proof.
  destruct (extract_actions_candidates transcript) as (cands & _ & Hex & _).
  by exists (deduplicate cands).
Qed.

(** C10.  "Call the doctor tomorrow." yields no action at all.  In
    general, when the name the Call pattern captures lowercases to one of
    the, a, my, our, them, back, the Call block adds nothing and control
    goes on to the Meeting block. *)
Theorem call_stoplist_falls_through :
  extract_actions (lit "Call the doctor tomorrow.") = Ok []
  ∧ ∀ (actions : list action) (raw : str) mo name,
      let sentence := strip raw in
      let lower := Py.lower sentence in
      search call_re sentence = Some mo →
      group1 mo = Some name →
      Py.lower name ∈
        [lit "the"; lit "a"; lit "my"; lit "our"; lit "them"; lit "back"] →
      call_block sentence lower actions = Next actions
      ∧ (call_block sentence lower >>> meeting_block sentence lower
         >>> task_block sentence lower) actions
        = (meeting_block sentence lower >>> task_block sentence lower) actions
      ∧ (email_block sentence lower actions = Next actions →
         loop_body actions raw =
           end_iteration
             ((meeting_block sentence lower >>> task_block sentence lower)
                actions)).
Proof.
  split; [vm_compute; reflexivity|].
  intros actions raw mo name sentence lower Hsearch Hname Hstop.
  assert (call_block sentence lower actions = Next actions) as Hcall.
  { unfold call_block. rewrite Hsearch, Hname.
    rewrite bool_decide_eq_true_2 by done. by destruct (_ || _). }
  split; [done|]. split.
  { unfold and_then. by rewrite Hcall. }
  intros Hemail. unfold loop_body. fold sentence. fold lower.
  destruct sentence as [|c s] eqn:Es; [by vm_compute in Hsearch|].
  cbn [truthy negb]. unfold and_then. by rewrite Hemail, Hcall.
Qed.

Lemma call_stoplist_falls_through_witness :
  let sentence := lit "please call Back soon" in
  let lower := lit "please call back soon" in
  call_block sentence lower [] = Next []
  ∧ (call_block sentence lower >>> meeting_block sentence lower
     >>> task_block sentence lower) []
    = (meeting_block sentence lower >>> task_block sentence lower) []
  ∧ loop_body [] (lit " please call Back soon ") =
      end_iteration
        ((meeting_block sentence lower >>> task_block sentence lower) []).
Proof.
  intros sentence lower.
  destruct (proj2 call_stoplist_falls_through []
              (lit " please call Back soon ")
              (Match (Some (lit "Back"))) (lit "Back"))
    as (Hcall & Hseq & Hloop).
  - vm_compute. reflexivity.
  - reflexivity.
  - vm_compute. do 5 right. left.
  - split; [exact Hcall|]. split; [exact Hseq|].
    apply Hloop. vm_compute. reflexivity.
Defined.

(** * Further properties of the extractor *)

(** ** Sentence splitting *)

Section SplitFacts.
Implicit Types (s t w : str) (c sep : ascii).

Lemma split_app sep s t :
  split sep (s ++ sep :: t) = split sep s ++ split sep t.
Proof.
  induction s as [|c s IH]; simpl.
  - by rewrite decide_True.
  - case_decide; [by rewrite IH|]. rewrite IH.
    destruct (split sep s) as [|f fs] eqn:E; [|done].
    destruct s; simpl in E; [done|]. case_decide; [done|].
    by destruct (split sep s).
Qed.

Lemma split_length sep s :
  length (split sep s) = S (length (filter (fun c => c = sep) s)).
Proof.
  induction s as [|c s IH]; simpl; [done|].
  case_decide as Hc.
  - rewrite filter_cons_True by done. simpl. by rewrite IH.
  - rewrite filter_cons_False by done.
    destruct (split sep s) as [|f fs]; [done|]. by rewrite <- IH.
Qed.

Lemma split_head_prefix sep s f fs :
  split sep s = f :: fs → ∃ b, s = f ++ b.
Proof.
  revert f fs. induction s as [|c s IH]; simpl; intros f fs E.
  - injection E as <- <-. by exists [].
  - case_decide.
    + injection E as <- <-. by exists (c :: s).
    + destruct (split sep s) as [|f' fs'] eqn:E'.
      * injection E as <- <-. destruct s; simpl in E'; [by exists []|].
        case_decide; [done|]. by destruct (split sep s).
      * injection E as <- <-. destruct (IH f' fs' eq_refl) as [b ->].
        by exists b.
Qed.

Lemma split_infix sep s field :
  field ∈ split sep s → ∃ a b, s = a ++ field ++ b.
Proof.
  revert field. induction s as [|c s IH]; simpl; intros field Hin.
  - apply list_elem_of_singleton in Hin as ->. by exists [], [].
  - case_decide as Hc.
    + apply elem_of_cons in Hin as [->|Hin].
      * by exists [], (c :: s).
      * apply IH in Hin as (a & b & ->). by exists (c :: a), b.
    + destruct (split sep s) as [|f fs] eqn:E.
      * apply list_elem_of_singleton in Hin as ->.
        destruct s; simpl in E; [by exists [], []|].
        case_decide; [done|]. by destruct (split sep s).
      * apply elem_of_cons in Hin as [->|Hin].
        -- destruct (split_head_prefix _ _ _ _ E) as [b ->].
           by exists [], b.
        -- destruct (IH field) as (a & b & ->); [by right|].
           by exists (c :: a), b.
Qed.
End SplitFacts.

(** ** Substrings *)

Section InfixFacts.
Implicit Types (s t w needle hay : str) (c : ascii).

Lemma startswith_spec p s : startswith p s = true ↔ ∃ b, s = p ++ b.
Proof.
  revert s. induction p as [|a p IH]; intros s; simpl.
  - split; [by exists s|done].
  - destruct s as [|b s].
    + split; [done|]. by intros [? ?].
    + rewrite andb_true_iff, bool_decide_eq_true, IH. split.
      * intros [-> [k ->]]. by exists k.
      * intros [k [= -> ->]]. eauto.
Qed.

Lemma contains_spec needle hay :
  contains needle hay = true ↔ ∃ a b, hay = a ++ needle ++ b.
Proof.
  induction hay as [|c hay IH]; simpl.
  - rewrite orb_false_r, startswith_spec. split.
    + intros [b ->]. by exists [], b.
    + intros (a & b & E). symmetry in E.
      apply app_eq_nil in E as [-> E]. apply app_eq_nil in E as [-> ->].
      by exists [].
  - rewrite orb_true_iff, startswith_spec, IH. split.
    + intros [[b ->]|(a & b & ->)]; [by exists [], b|by exists (c :: a), b].
    + intros ([|d a] & b & E); simpl in E.
      * left. by exists b.
      * injection E as -> ->. right. by exists a, b.
Qed.

Lemma contains_infix needle s a b :
  contains needle s = true → contains needle (a ++ s ++ b) = true.
Proof.
  rewrite !contains_spec. intros (a' & b' & ->).
  exists (a ++ a'), (b' ++ b). by rewrite <- !app_assoc.
Qed.

Lemma lower_app s t : lower (s ++ t) = lower s ++ lower t.
Proof. apply List.map_app. Qed.

Lemma replace_without_new old new s :
  new ∉ replace old new s → replace old new s = s.
Proof.
  induction s as [|c s IH]; simpl; [done|].
  intros [Hc Hs]%not_elem_of_cons. rewrite IH by done.
  by destruct (decide (c = old)).
Qed.

Lemma strip_infix s : ∃ a b, s = a ++ strip s ++ b.
Proof.
  destruct (lstrip_suffix s) as [a Ha].
  destruct (lstrip_suffix (reverse (lstrip s))) as [b Hb].
  exists a, (reverse b). unfold strip, rstrip.
  rewrite <- reverse_app, <- Hb, reverse_involutive. done.
Qed.

Lemma rstrip_prefix s : ∃ b, s = rstrip s ++ b.
Proof.
  destruct (lstrip_suffix (reverse s)) as [b Hb]. exists (reverse b).
  unfold rstrip. by rewrite <- reverse_app, <- Hb, reverse_involutive.
Qed.

Lemma lstrip_fixed s :
  (∀ c, head s = Some c → isspace c = false) → lstrip s = s.
Proof.
  destruct s as [|c s]; [done|]. intros H. simpl. by rewrite (H c).
Qed.

Lemma rstrip_fixed s :
  (∀ c, last s = Some c → isspace c = false) → rstrip s = s.
Proof.
  intros H. unfold rstrip. rewrite lstrip_fixed.
  - apply reverse_involutive.
  - intros c. rewrite head_reverse. apply H.
Qed.

Lemma strip_head s c : head (strip s) = Some c → isspace c = false.
Proof.
  unfold strip. destruct (rstrip_prefix (lstrip s)) as [b Hb].
  destruct (rstrip (lstrip s)) as [|d u] eqn:E; [done|].
  intros [= ->]. by apply lstrip_head in Hb.
Qed.

Lemma strip_trimmed s : strip (strip s) = strip s.
Proof.
  unfold strip at 1. rewrite lstrip_fixed by apply strip_head.
  apply rstrip_fixed, strip_last.
Qed.

Lemma sentence_infix transcript raw :
  raw ∈ sentences_of transcript → ∃ a b, transcript = a ++ strip raw ++ b.
Proof.
  intros Hin. pose proof (split_no_sep _ _ _ Hin) as Hdot.
  unfold sentences_of in Hin.
  apply split_infix in Hin as (a & b & E).
  assert ("."%char ∉ replace "?" "." (replace "!" "." raw)
          → replace "?" "." (replace "!" "." raw) = raw) as Hsame.
  { intros H. rewrite (replace_without_new "?" ".") by done.
    rewrite (replace_without_new "?" ".") in H by done.
    by rewrite (replace_without_new "!" "."). }
  unfold replace in E at 1.
  apply List.map_eq_app in E as (a1 & r1 & E1 & Ha & E).
  apply List.map_eq_app in E as (r2 & b1 & -> & Hr & Hb).
  unfold replace in E1.
  apply List.map_eq_app in E1 as (a0 & r0 & -> & Ha0 & E0).
  apply List.map_eq_app in E0 as (r3 & b0 & -> & Hr3 & Hb0).
  assert (r3 = raw) as ->.
  { rewrite <- Hr, <- Hr3 in Hdot.
    fold (replace "!" "." r3) in Hdot. fold (replace "?" "." (replace "!" "." r3)) in Hdot.
    pose proof Hdot as Hdot'.
    rewrite (replace_without_new "?" ".") in Hdot' by done.
    apply replace_without_new in Hdot'. apply replace_without_new in Hdot.
    rewrite <- Hr, <- Hr3.
    fold (replace "!" "." r3). fold (replace "?" "." (replace "!" "." r3)).
    by rewrite Hdot, Hdot'. }
  clear Hsame. destruct (strip_infix raw) as (a' & b' & Hraw).
  exists (a0 ++ a'), (b' ++ b0). rewrite Hraw at 1.
  by rewrite <- !app_assoc.
Qed.
End InfixFacts.

(** ** Sentences of a longer transcript *)

Section TranscriptFacts.
Implicit Types (t : str) (sep : ascii) (l : list action).

Lemma sentences_of_app t1 t2 sep :
  sep ∈ ["."; "!"; "?"]%char →
  sentences_of (t1 ++ sep :: t2) = sentences_of t1 ++ sentences_of t2.
Proof.
  intros Hsep. unfold sentences_of, replace.
  rewrite !List.map_app. cbn [map].
  assert ((if decide ((if decide (sep = "!"%char) then "."%char else sep)
                      = "?"%char) then "."%char
           else if decide (sep = "!"%char) then "."%char else sep)
          = "."%char) as ->.
  { apply elem_of_cons in Hsep as [->|Hsep]; [done|].
    apply elem_of_cons in Hsep as [->|Hsep]; [done|].
    by apply list_elem_of_singleton in Hsep as ->. }
  apply split_app.
Qed.

Lemma dedup_loop_app (seen : gset str) l1 l2 :
  dedup_loop seen [] (l1 ++ l2) =
    dedup_loop seen [] l1
    ++ dedup_loop (seen ∪ list_to_set (Spec.key <$> l1)) [] l2.
Proof.
  revert seen. induction l1 as [|a l1 IH]; intros seen.
  - change (Spec.key <$> []) with (@nil str).
    by rewrite list_to_set_nil, (right_id_L ∅ (∪)).
  - rewrite <- app_comm_cons, !dedup_loop_cons, fmap_cons, list_to_set_cons.
    case_decide as Hin.
    + rewrite IH. do 2 f_equal.
      apply set_eq. intros k. rewrite !elem_of_union, elem_of_singleton.
      split; [tauto|]. intros [?|[->|?]]; tauto.
    + rewrite IH. simpl. do 3 f_equal.
      apply set_eq. intros k. rewrite !elem_of_union, elem_of_singleton. tauto.
Qed.

Lemma candidates_app t1 t2 sep :
  sep ∈ ["."; "!"; "?"]%char →
  ∃ c1 c2,
    for_sentences [] (sentences_of t1) = Ok c1
    ∧ for_sentences [] (sentences_of t2) = Ok c2
    ∧ for_sentences [] (sentences_of (t1 ++ sep :: t2)) = Ok (c1 ++ c2)
    ∧ extract_actions t1 = Ok (deduplicate c1)
    ∧ extract_actions (t1 ++ sep :: t2) = Ok (deduplicate (c1 ++ c2)).
Proof.
  intros Hsep.
  destruct (extract_actions_candidates t1) as (c1 & H1 & Hex1 & _).
  destruct (extract_actions_candidates t2) as (c2 & H2 & _ & _).
  destruct (extract_actions_candidates (t1 ++ sep :: t2))
    as (c & H & Hex & _).
  exists c1, c2. repeat split; try done.
  - rewrite sentences_of_app, for_sentences_first_match, omap_app by done.
    rewrite for_sentences_first_match in H1, H2.
    injection H1 as <-. injection H2 as <-. done.
  - rewrite Hex. do 2 f_equal.
    rewrite sentences_of_app, for_sentences_first_match, omap_app in H by done.
    rewrite for_sentences_first_match in H1, H2.
    injection H1 as <-. injection H2 as <-. by injection H as <-.
Qed.
End TranscriptFacts.

(** X1.  Which of the three terminators ends a sentence makes no
    difference: rewriting a transcript character by character, so that
    terminators stay terminators and every other character is kept, does
    not change the result. *)
Theorem terminators_interchangeable (h : ascii → ascii) (transcript : str) :
  (∀ c, c ∈ ["."; "!"; "?"]%char → h c ∈ ["."; "!"; "?"]%char) →
  (∀ c, c ∉ ["."; "!"; "?"]%char → h c = c) →
  extract_actions (map h transcript) = extract_actions transcript.
Proof.
  intros Hterm Hother. unfold extract_actions.
  assert (truthy (map h transcript) = truthy transcript) as ->
    by by destruct transcript.
  destruct (negb (truthy transcript)); [done|]. do 2 f_equal.
  unfold sentences_of, replace. rewrite !List.map_map. f_equal.
  apply List.map_ext. intros c.
  destruct (decide (c ∈ ["."; "!"; "?"]%char)) as [Hc|Hc].
  - pose proof (Hterm c Hc) as Hhc.
    assert (∀ d, d ∈ ["."; "!"; "?"]%char →
              (if decide ((if decide (d = "!"%char) then "."%char else d)
                          = "?"%char) then "."%char
               else if decide (d = "!"%char) then "."%char else d)
              = "."%char) as Hnorm.
    { intros d Hd.
      apply elem_of_cons in Hd as [->|Hd]; [done|].
      apply elem_of_cons in Hd as [->|Hd]; [done|].
      by apply list_elem_of_singleton in Hd as ->. }
    by rewrite (Hnorm c), (Hnorm (h c)).
  - by rewrite Hother.
Qed.

Lemma terminators_interchangeable_witness :
  extract_actions
    (map (fun c => if decide (c = "."%char) then "!"%char else c)
       (lit "please call Sarah. I must finish the budget report today?"))
  = extract_actions
      (lit "please call Sarah. I must finish the budget report today?").
Proof.
  apply (terminators_interchangeable
           (fun c => if decide (c = "."%char) then "!"%char else c)).
  - intros c Hc.
    apply elem_of_cons in Hc as [->|Hc]; [vm_compute; right; left|].
    apply elem_of_cons in Hc as [->|Hc]; [vm_compute; right; left|].
    apply list_elem_of_singleton in Hc as ->. vm_compute. do 2 right. left.
  - intros c Hc. case_decide as E; [|done].
    exfalso. apply Hc. rewrite E. left.
Defined.

(** X2.  Sentences are processed independently: the candidates of
    [t1 + sep + t2], for a terminator [sep], are those of [t1] followed by
    those of [t2], and the result is their de-duplication. *)
Theorem extract_actions_append (t1 t2 : str) (sep : ascii) :
  sep ∈ ["."; "!"; "?"]%char →
  ∃ c1 c2,
    for_sentences [] (sentences_of t1) = Ok c1
    ∧ for_sentences [] (sentences_of t2) = Ok c2
    ∧ for_sentences [] (sentences_of (t1 ++ sep :: t2)) = Ok (c1 ++ c2)
    ∧ extract_actions (t1 ++ sep :: t2) = Ok (deduplicate (c1 ++ c2)).
Proof.
  intros Hsep.
  destruct (candidates_app t1 t2 sep Hsep) as (c1 & c2 & ? & ? & ? & _ & ?).
  by exists c1, c2.
Qed.

Lemma extract_actions_append_witness :
  ∃ c1 c2,
    for_sentences [] (sentences_of (lit "please call Sarah")) = Ok c1
    ∧ for_sentences [] (sentences_of (lit "then ring Bob Smith")) = Ok c2
    ∧ for_sentences []
        (sentences_of (lit "please call Sarah" ++ "!"%char
                       :: lit "then ring Bob Smith")) = Ok (c1 ++ c2)
    ∧ extract_actions
        (lit "please call Sarah" ++ "!"%char :: lit "then ring Bob Smith")
      = Ok (deduplicate (c1 ++ c2)).
Proof.
  apply (extract_actions_append (lit "please call Sarah")
           (lit "then ring Bob Smith") "!"%char).
  right. left.
Defined.

(** X3.  Text added after a terminator never removes, changes or reorders
    the actions already extracted: the result for [t1] is a prefix of the
    result for [t1 + sep + t2]. *)
Theorem extract_actions_prefix_stable (t1 t2 : str) (sep : ascii) actions :
  sep ∈ ["."; "!"; "?"]%char →
  extract_actions t1 = Ok actions →
  ∃ more, extract_actions (t1 ++ sep :: t2) = Ok (actions ++ more).
Proof.
  intros Hsep Hex.
  destruct (candidates_app t1 t2 sep Hsep)
    as (c1 & c2 & _ & _ & _ & Hex1 & Hex12).
  rewrite Hex1 in Hex. injection Hex as <-.
  eexists. rewrite Hex12. unfold deduplicate. by rewrite dedup_loop_app.
Qed.

Lemma extract_actions_prefix_stable_witness :
  ∃ more,
    extract_actions
      (lit "please call Sarah" ++ "."%char :: lit " also ring Sarah or Bob")
    = Ok ([ {| action_type := lit "call"; title := lit "Call Sarah";
               description := lit "please call Sarah";
               metadata := {[ lit "contact" := Some (lit "Sarah") ]} |} ]
          ++ more).
Proof.
  apply (extract_actions_prefix_stable (lit "please call Sarah")).
  - left.
  - vm_compute. reflexivity.
Defined.

(** ** More on de-duplication *)

Section DedupMore.
Implicit Types (seen : gset str) (l : list action) (a : action).

Lemma dedup_loop_seen (s1 s2 : gset str) l :
  dedup_loop (s1 ∪ s2) [] l =
    filter (fun a => Spec.key a ∉ s1) (dedup_loop s2 [] l).
Proof.
  revert s2. induction l as [|a l IH]; intros s2; [done|].
  rewrite !dedup_loop_cons.
  destruct (decide (Spec.key a ∈ s2)) as [H2|H2].
  - rewrite decide_True by (apply elem_of_union; by right). apply IH.
  - destruct (decide (Spec.key a ∈ s1)) as [H1|H1].
    + rewrite decide_True by (apply elem_of_union; by left).
      rewrite filter_cons_False by (intros H; by apply H).
      rewrite <- IH. f_equal. apply set_eq. intros k.
      rewrite !elem_of_union, elem_of_singleton.
      split; [tauto|]. intros [?|[->|?]]; tauto.
    + rewrite decide_False
        by (intros [?|?]%elem_of_union; done).
      rewrite filter_cons_True by done. f_equal.
      rewrite <- IH. f_equal. apply set_eq. intros k.
      rewrite !elem_of_union, elem_of_singleton. tauto.
Qed.

Lemma dedup_loop_fixed seen l :
  NoDup (Spec.key <$> l) →
  (∀ a, a ∈ l → Spec.key a ∉ seen) →
  dedup_loop seen [] l = l.
Proof.
  revert seen. induction l as [|a l IH]; intros seen Hnd Hseen; [done|].
  rewrite fmap_cons in Hnd. apply NoDup_cons in Hnd as [Ha Hnd].
  rewrite dedup_loop_cons.
  rewrite decide_False by (apply Hseen; by left). f_equal.
  apply IH; [done|]. intros b Hb [Hk%elem_of_singleton|Hk]%elem_of_union.
  - apply Ha. rewrite <- Hk. by apply list_elem_of_fmap_2.
  - apply (Hseen b); [by right|done].
Qed.
End DedupMore.

(** X4.  De-duplicating a concatenation keeps the de-duplicated first part
    and, of the de-duplicated second part, the candidates whose lowercased
    title the first part does not already have. *)
Theorem deduplicate_app (l1 l2 : list action) :
  deduplicate (l1 ++ l2) =
    deduplicate l1
    ++ filter (fun a => Py.lower (title a) ∉ (Py.lower ∘ title <$> l1))
         (deduplicate l2).
Proof.
  unfold deduplicate. rewrite dedup_loop_app. f_equal.
  rewrite (comm_L (∪)), dedup_loop_seen.
  apply list_filter_iff. intros a. unfold Spec.key.
  by rewrite elem_of_list_to_set.
Qed.

(** X5.  De-duplication leaves a list whose lowercased titles are pairwise
    distinct as it is, and so doing it twice is doing it once. *)
Theorem deduplicate_idempotent (l : list action) :
  (NoDup (Py.lower ∘ title <$> l) → deduplicate l = l)
  ∧ deduplicate (deduplicate l) = deduplicate l.
Proof.
  split.
  - intros Hnd. apply dedup_loop_fixed; [done|].
    intros a _. apply not_elem_of_empty.
  - apply dedup_loop_fixed; [apply dedup_loop_NoDup|].
    intros a _. apply not_elem_of_empty.
Qed.

Lemma deduplicate_idempotent_witness :
  deduplicate
    [ {| action_type := lit "call"; title := lit "Call Bob";
         description := lit "call Bob"; metadata := ∅ |};
      {| action_type := lit "task"; title := lit "call bobby";
         description := lit "x"; metadata := ∅ |} ]
  = [ {| action_type := lit "call"; title := lit "Call Bob";
         description := lit "call Bob"; metadata := ∅ |};
      {| action_type := lit "task"; title := lit "call bobby";
         description := lit "x"; metadata := ∅ |} ].
Proof.
  apply (proj1 (deduplicate_idempotent _)).
  vm_compute. repeat constructor.
  - intros [H|H]%elem_of_cons; [discriminate|by apply elem_of_nil in H].
  - by intros H%elem_of_nil.
Defined.

(** ** Where an action comes from *)

Section Provenance.
Implicit Types (s raw : str) (a : action).

Lemma call_rule_inv s a :
  Spec.call_rule s = Some a →
  contains (lit "call") (lower s) || contains (lit "phone") (lower s)
    || contains (lit "ring") (lower s) = true
  ∧ ∃ mo name,
      search call_re s = Some mo ∧ group1 mo = Some name
      ∧ (lower name ∉ call_stoplist)
      ∧ a = {| action_type := lit "call"; title := lit "Call " ++ name;
               description := s;
               metadata := {[ lit "contact" := Some name ]} |}.
Proof.
  unfold Spec.call_rule. cbv zeta.
  destruct (_ || _); [|done]. intros H. split; [done|]. revert H.
  destruct (search call_re s) as [[[name|]]|]; simpl; try done.
  destruct (bool_decide _) eqn:E; [done|]. intros [= <-].
  apply bool_decide_eq_false in E. by exists (Match (Some name)), name.
Qed.

Lemma meeting_rule_inv s a :
  Spec.meeting_rule s = Some a →
  contains (lit "meeting") (lower s) || contains (lit "meet with") (lower s)
    || contains (lit "schedule") (lower s) = true
  ∧ ∃ mo name,
      search meeting_re s = Some mo ∧ group1 mo = Some name
      ∧ (lower name ∉ meeting_stoplist)
      ∧ a = {| action_type := lit "meeting";
               title := lit "Meeting with " ++ name;
               description := s;
               metadata := {[ lit "contact" := Some name ]} |}.
Proof.
  unfold Spec.meeting_rule. cbv zeta.
  destruct (_ || _); [|done]. intros H. split; [done|]. revert H.
  destruct (search meeting_re s) as [[[name|]]|]; simpl; try done.
  destruct (bool_decide _) eqn:E; [done|]. intros [= <-].
  apply bool_decide_eq_false in E. by exists (Match (Some name)), name.
Qed.

Lemma task_rule_inv s a :
  Spec.task_rule s = Some a →
  contains (lit "need to") (lower s) || contains (lit "should") (lower s)
    || contains (lit "must") (lower s) || contains (lit "have to") (lower s)
    = true
  ∧ ∃ mo g,
      search task_re s = Some mo ∧ group1 mo = Some g
      ∧ a = {| action_type := lit "task"; title := take 50 (strip g);
               description := s; metadata := ∅ |}.
Proof.
  unfold Spec.task_rule. cbv zeta.
  destruct (_ || _); [|done]. intros H. split; [done|]. revert H.
  destruct (search task_re s) as [[[g|]]|]; simpl; try done.
  intros [= <-].
  by exists (Match (Some g)), g.
Qed.

(** Every returned action is what the Call, Meeting or Task rule made of
    one trimmed, non-empty, stop-free sentence of the transcript. *)
Lemma action_provenance transcript actions a :
  extract_actions transcript = Ok actions →
  a ∈ actions →
  ∃ raw,
    raw ∈ sentences_of transcript
    ∧ strip raw ≠ []
    ∧ ("."%char ∉ strip raw)
    ∧ (Spec.call_rule (strip raw) = Some a
       ∨ Spec.meeting_rule (strip raw) = Some a
       ∨ Spec.task_rule (strip raw) = Some a).
Proof.
  intros Hex Hin.
  destruct (extract_actions_candidates transcript)
    as (cands & _ & Hex' & Hcands).
  rewrite Hex' in Hex. injection Hex as <-.
  apply (sublist_subseteq _ _ (dedup_loop_sublist ∅ cands)) in Hin.
  apply Hcands in Hin as (raw & Hraw & Hrule).
  exists raw. split; [done|]. split.
  { intros E. rewrite E in Hrule. by rewrite rules_of_empty in Hrule. }
  pose proof (sentence_no_dot _ _ Hraw) as Hdot. split; [done|].
  unfold Spec.rules, Spec.first_match in Hrule.
  rewrite email_rule_no_dot in Hrule by done.
  destruct (Spec.call_rule _); [by left|].
  destruct (Spec.meeting_rule _); [by right; left|].
  destruct (Spec.task_rule _); [by right; right|done].
Qed.
End Provenance.

(** ** The Meeting and Task patterns *)

Section PatternShapes.
Implicit Types (w rest name suf s : str) (x : st).


Lemma spaces_nonempty (ws : str) : 1 ≤ length ws → ws ≠ [].
Proof. intros H ->. simpl in H. lia. Qed.

Lemma meeting_re_shape suf x :
  x ∈ m meeting_re suf None →
  ∃ kw ws opt name,
    suf = kw ++ ws ++ opt ++ name ++ x.1 ∧ x.2 = Some name
    ∧ kw ∈ [lit "meet"; lit "meeting"; lit "schedule"]
    ∧ ws ≠ [] ∧ forallb isspace ws = true
    ∧ (opt = [] ∨ ∃ ws', opt = lit "with" ++ ws' ∧ ws' ≠ []
                         ∧ forallb isspace ws' = true)
    ∧ Spec.cap_name name.
Proof.
  unfold meeting_re, cat. cbn [foldr]. intros Hx.
  apply m_seq in Hx as (y1 & Hy1 & Hx).
  apply m_seq in Hx as (y2 & Hy2 & Hx).
  apply m_seq in Hx as (y3 & Hy3 & Hx).
  apply m_seq in Hx as (y4 & Hy4 & Hx).
  apply list_elem_of_singleton in Hx as ->.
  apply m_lang in Hy1 as (kw & -> & Hkw).
  apply m_lang in Hy2 as (ws & E2 & Hws & Hwslen & _).
  apply m_lang in Hy3 as (opt & E3 & Hopt).
  apply m_group in Hy4 as (name & E4 & Hg & Hname).
  exists kw, ws, opt, name. rewrite E2, E3, E4.
  split; [done|]. split; [done|]. split; [|split; [|split; [|split]]].
  - destruct Hkw as [(w1 & w2 & -> & ->%lang_chars & w3 & w4 & -> & Hing & ->)
                    | ->%lang_chars].
    + destruct Hing as [->%lang_chars| ->]; [by right; left|by left].
    + by right; right; left.
  - by apply spaces_nonempty.
  - done.
  - destruct Hopt as [(w1 & w2 & -> & ->%lang_chars & w3 & w4 & ->
                       & (Hsp & Hlen & _) & ->)| ->]; [|by left].
    right. exists w3. rewrite app_nil_r.
    split; [done|]. split; [by apply spaces_nonempty|done].
  - by eapply lang_name_re.
Qed.

End PatternShapes.

(** ** What every returned action looks like *)

Section Counting.
Implicit Types (t : str).

Lemma replace_elem old new (s : str) c :
  c ∈ replace old new s → c = new ∨ (c ≠ old ∧ c ∈ s).
Proof.
  induction s as [|d s IH]; simpl; [by intros ?%elem_of_nil|].
  intros [->|Hin]%elem_of_cons.
  - case_decide; [by left|]. right. split; [done|by left].
  - destruct (IH Hin) as [?|[? ?]]; [by left|]. right. split; [done|by right].
Qed.

Lemma omap_length_le {A B} (f : A → option B) (l : list A) :
  length (omap f l) ≤ length l.
Proof.
  induction l as [|x l IH]; [done|].
  unfold omap in *. cbn [list_omap]. destruct (f x); simpl; lia.
Qed.

Lemma sentences_of_length t :
  length (sentences_of t) =
    S (length (filter (fun c => c ∈ ["."; "!"; "?"]%char) t)).
Proof.
  unfold sentences_of. rewrite split_length. f_equal.
  induction t as [|c t IH]; [done|]. unfold replace in *. cbn [map].
  destruct (decide (c ∈ ["."; "!"; "?"]%char)) as [Hc|Hc].
  - rewrite (filter_cons_True _ c t) by done.
    rewrite filter_cons_True; [simpl; by rewrite IH|].
    apply elem_of_cons in Hc as [->|Hc]; [done|].
    apply elem_of_cons in Hc as [->|Hc]; [done|].
    by apply list_elem_of_singleton in Hc as ->.
  - rewrite (filter_cons_False _ c t) by done.
    rewrite filter_cons_False; [done|].
    intros E. apply Hc.
    destruct (decide (c = "!"%char)) as [->|]; [by right; left|].
    destruct (decide (c = "?"%char)) as [->|]; [by right; right; left|].
    rewrite E. by left.
Qed.
End Counting.

(** X6.  There are never more actions than sentences: at most one more
    than the transcript has terminators. *)
Theorem action_count_bound (transcript : str) (actions : list action) :
  extract_actions transcript = Ok actions →
  length actions ≤
    S (length (filter (fun c => c ∈ ["."; "!"; "?"]%char) transcript)).
Proof.
  intros Hex.
  destruct (extract_actions_candidates transcript) as (cands & Hc & Hex' & _).
  rewrite Hex' in Hex. injection Hex as <-.
  rewrite for_sentences_first_match in Hc. injection Hc as <-.
  rewrite <- sentences_of_length.
  etrans; [apply sublist_length, dedup_loop_sublist|].
  apply omap_length_le.
Qed.

Lemma action_count_bound_witness :
  length
    [ {| action_type := lit "call"; title := lit "Call Sarah";
         description := lit "please call Sarah";
         metadata := {[ lit "contact" := Some (lit "Sarah") ]} |} ]
  ≤ S (length (filter (fun c => c ∈ ["."; "!"; "?"]%char)
                 (lit "Hello! please call Sarah."))).
Proof.
  apply (action_count_bound (lit "Hello! please call Sarah.")).
  vm_compute. reflexivity.
Defined.

(** X7.  The description of every returned action is a piece of the
    transcript itself: non-empty, free of the three terminators, and with
    no whitespace at either end. *)
Theorem description_is_trimmed_sentence
    (transcript : str) (actions : list action) a :
  extract_actions transcript = Ok actions →
  a ∈ actions →
  description a ≠ []
  ∧ (∃ pre post, transcript = pre ++ description a ++ post)
  ∧ (∀ c, c ∈ ["."; "!"; "?"]%char → c ∉ description a)
  ∧ strip (description a) = description a.
Proof.
  intros Hex Hin.
  destruct (action_provenance _ _ _ Hex Hin) as (raw & Hraw & Hne & Hdot & Hrule).
  assert (description a = strip raw) as ->.
  { destruct Hrule as [H|[H|H]].
    - by apply call_rule_inv in H as (_ & mo & name & _ & _ & _ & ->).
    - by apply meeting_rule_inv in H as (_ & mo & name & _ & _ & _ & ->).
    - by apply task_rule_inv in H as (_ & mo & g & _ & _ & ->). }
  split; [done|]. split; [by apply sentence_infix|].
  split; [|apply strip_trimmed].
  destruct (sentence_infix _ _ Hraw) as (pre & post & Ht).
  intros c Hc Hin'.
  apply elem_of_cons in Hc as [->|Hc]; [done|].
  (* an exclamation or question mark would have split the sentence *)
  unfold sentences_of in Hraw. apply split_infix in Hraw as (p & q & E).
  destruct (strip_infix raw) as (p' & q' & Eraw).
  assert (c ∈ replace "?" "." (replace "!" "." transcript)) as Hc'.
  { rewrite E, Eraw, !elem_of_app. tauto. }
  apply replace_elem in Hc' as [->|[Hq Hc']].
  { apply elem_of_cons in Hc as [?|Hc]; [done|].
    by apply list_elem_of_singleton in Hc. }
  apply replace_elem in Hc' as [->|[He _]].
  { apply elem_of_cons in Hc as [?|Hc]; [done|].
    by apply list_elem_of_singleton in Hc. }
  apply elem_of_cons in Hc as [?|Hc]; [done|].
  by apply list_elem_of_singleton in Hc.
Qed.

Lemma description_is_trimmed_sentence_witness :
  let a := {| action_type := lit "call"; title := lit "Call Sarah";
              description := lit "please call Sarah";
              metadata := {[ lit "contact" := Some (lit "Sarah") ]} |} in
  description a ≠ []
  ∧ (∃ pre post,
       lit "Hello!  please call Sarah . Bye" = pre ++ description a ++ post)
  ∧ (∀ c, c ∈ ["."; "!"; "?"]%char → c ∉ description a)
  ∧ strip (description a) = description a.
Proof.
  intros a.
  apply (description_is_trimmed_sentence
           (lit "Hello!  please call Sarah . Bye") [a] a).
  - vm_compute. reflexivity.
  - apply list_elem_of_singleton. reflexivity.
Defined.

Section Triggers.
Implicit Types (s t : str).

Lemma contains_in_sentence transcript raw kw :
  raw ∈ sentences_of transcript →
  contains kw (lower (strip raw)) = true →
  contains kw (lower transcript) = true.
Proof.
  intros (pre & post & ->)%sentence_infix Hkw.
  rewrite !lower_app. by apply contains_infix.
Qed.

Lemma call_gate_of_match s mo :
  search call_re s = Some mo →
  contains (lit "call") (lower s) || contains (lit "phone") (lower s)
    || contains (lit "ring") (lower s) = true.
Proof.
  intros (pre & suf & x & -> & Hx & _)%search_sound.
  apply call_re_shape in Hx as (kw & ws & name & -> & _ & Hkw & _).
  rewrite !lower_app, !orb_true_iff.
  apply elem_of_cons in Hkw as [->|Hkw]; [left; left|].
  { apply contains_spec. by eexists _, _. }
  apply elem_of_cons in Hkw as [->|Hkw]; [left; right|].
  { apply contains_spec. by eexists _, _. }
  apply list_elem_of_singleton in Hkw as ->. right.
  apply contains_spec. by eexists _, _.
Qed.
End Triggers.

(** X8.  Without one of the ten trigger words of the Call, Meeting and
    Task rules, in any letter case, a transcript gives no action at all;
    "email" and "send" alone never lead to one. *)
Theorem no_trigger_no_action (transcript : str) :
  (∀ kw, kw ∈ [lit "call"; lit "phone"; lit "ring"; lit "meeting";
                lit "meet with"; lit "schedule"; lit "need to";
                lit "should"; lit "must"; lit "have to"] →
         contains kw (lower transcript) = false) →
  extract_actions transcript = Ok [].
Proof.
  intros Hno.
  destruct (extract_actions_candidates transcript) as (cands & _ & Hex & _).
  destruct (deduplicate cands) as [|a rest] eqn:E; [done|]. exfalso.
  assert (a ∈ a :: rest) as Hin by by left.
  destruct (action_provenance _ _ _ Hex Hin)
    as (raw & Hraw & _ & _ & [H|[H|H]]).
  - apply call_rule_inv in H as (Hgate & _).
    rewrite !orb_true_iff in Hgate.
    destruct Hgate as [[H|H]|H];
      apply (contains_in_sentence _ _ _ Hraw) in H;
      rewrite Hno in H; try done.
    + by left.
    + by right; left.
    + by do 2 right; left.
  - apply meeting_rule_inv in H as (Hgate & _).
    rewrite !orb_true_iff in Hgate.
    destruct Hgate as [[H|H]|H];
      apply (contains_in_sentence _ _ _ Hraw) in H;
      rewrite Hno in H; try done.
    + by do 3 right; left.
    + by do 4 right; left.
    + by do 5 right; left.
  - apply task_rule_inv in H as (Hgate & _).
    rewrite !orb_true_iff in Hgate.
    destruct Hgate as [[[H|H]|H]|H];
      apply (contains_in_sentence _ _ _ Hraw) in H;
      rewrite Hno in H; try done.
    + by do 6 right; left.
    + by do 7 right; left.
    + by do 8 right; left.
    + by do 9 right; left.
Qed.

Lemma no_trigger_no_action_witness :
  extract_actions (lit "Please email john@example.com. Send it today!")
  = Ok [].
Proof.
  apply no_trigger_no_action. intros kw Hkw.
  repeat (apply elem_of_cons in Hkw as [->|Hkw]; [vm_compute; reflexivity|]).
  by apply elem_of_nil in Hkw.
Defined.

(** X9.  The keyword gate of the Call rule never holds back a sentence
    the Call pattern would match: a successful search implies that the
    lowercased sentence contains call, phone or ring. *)
Theorem call_gate_follows_from_match (s : str) :
  is_Some (search call_re s) →
  contains (lit "call") (lower s) || contains (lit "phone") (lower s)
    || contains (lit "ring") (lower s) = true.
Proof. intros [mo Hmo]. by eapply call_gate_of_match. Qed.

Lemma call_gate_follows_from_match_witness :
  contains (lit "call") (lower (lit "I'll phone Bob"))
    || contains (lit "phone") (lower (lit "I'll phone Bob"))
    || contains (lit "ring") (lower (lit "I'll phone Bob")) = true.
Proof.
  apply (call_gate_follows_from_match (lit "I'll phone Bob")).
  vm_compute. by eexists.
Defined.

(** X10.  Every returned Call action names one or two capitalized words
    that stand in its description right after a lower-case "call", "phone"
    or "ring" and the whitespace behind it; the name is not stoplisted, the
    title is "Call " + name and the metadata are {contact: name}. *)
Theorem call_action_shape (transcript : str) (actions : list action) a :
  extract_actions transcript = Ok actions →
  a ∈ actions →
  action_type a = lit "call" →
  ∃ name pre kw ws post,
    title a = lit "Call " ++ name
    ∧ metadata a = {[ lit "contact" := Some name ]}
    ∧ description a = pre ++ kw ++ ws ++ name ++ post
    ∧ kw ∈ [lit "call"; lit "phone"; lit "ring"]
    ∧ ws ≠ [] ∧ forallb isspace ws = true
    ∧ Spec.cap_name name
    ∧ (lower name ∉ call_stoplist).
Proof.
  intros Hex Hin Hty.
  destruct (action_provenance _ _ _ Hex Hin) as (raw & _ & _ & _ & [H|[H|H]]).
  - apply call_rule_inv in H as (_ & mo & name & Hs & Hg & Hstop & ->).
    destruct (search_sound _ _ _ Hs) as (pre & suf & x & E & Hx & Hgx).
    apply call_re_shape in Hx
      as (kw & ws & name' & -> & Hname & Hkw & Hws & Hsp & Hcap).
    assert (name' = name) as -> by congruence.
    exists name, pre, kw, ws, x.1. simpl. by rewrite E.
  - apply meeting_rule_inv in H as (_ & mo & name & _ & _ & _ & ->).
    by vm_compute in Hty.
  - apply task_rule_inv in H as (_ & mo & g & _ & _ & ->).
    by vm_compute in Hty.
Qed.

Lemma call_action_shape_witness :
  let a := {| action_type := lit "call"; title := lit "Call Sarah Johnson";
              description := lit "then phone  Sarah Johnson at noon";
              metadata := {[ lit "contact" := Some (lit "Sarah Johnson") ]} |}
  in
  ∃ name pre kw ws post,
    title a = lit "Call " ++ name
    ∧ metadata a = {[ lit "contact" := Some name ]}
    ∧ description a = pre ++ kw ++ ws ++ name ++ post
    ∧ kw ∈ [lit "call"; lit "phone"; lit "ring"]
    ∧ ws ≠ [] ∧ forallb isspace ws = true
    ∧ Spec.cap_name name
    ∧ (lower name ∉ call_stoplist).
Proof.
  intros a.
  apply (call_action_shape
           (lit "Hi. then phone  Sarah Johnson at noon!") [a] a).
  - vm_compute. reflexivity.
  - apply list_elem_of_singleton. reflexivity.
  - reflexivity.
Defined.

(** X11.  Every returned Meeting action names one or two capitalized words
    that stand in its description after a lower-case "meet", "meeting" or
    "schedule", whitespace, and an optional "with" and whitespace; the name
    is none of the, a, my, our, the title is "Meeting with " + name and the
    metadata are {contact: name}. *)
Theorem meeting_action_shape (transcript : str) (actions : list action) a :
  extract_actions transcript = Ok actions →
  a ∈ actions →
  action_type a = lit "meeting" →
  ∃ name pre kw ws opt post,
    title a = lit "Meeting with " ++ name
    ∧ metadata a = {[ lit "contact" := Some name ]}
    ∧ description a = pre ++ kw ++ ws ++ opt ++ name ++ post
    ∧ kw ∈ [lit "meet"; lit "meeting"; lit "schedule"]
    ∧ ws ≠ [] ∧ forallb isspace ws = true
    ∧ (opt = [] ∨ ∃ ws', opt = lit "with" ++ ws' ∧ ws' ≠ []
                         ∧ forallb isspace ws' = true)
    ∧ Spec.cap_name name
    ∧ (lower name ∉ meeting_stoplist).
Proof.
  intros Hex Hin Hty.
  destruct (action_provenance _ _ _ Hex Hin) as (raw & _ & _ & _ & [H|[H|H]]).
  - apply call_rule_inv in H as (_ & mo & name & _ & _ & _ & ->).
    by vm_compute in Hty.
  - apply meeting_rule_inv in H as (_ & mo & name & Hs & Hg & Hstop & ->).
    destruct (search_sound _ _ _ Hs) as (pre & suf & x & E & Hx & Hgx).
    apply meeting_re_shape in Hx
      as (kw & ws & opt & name' & -> & Hname & Hkw & Hws & Hsp & Hopt & Hcap).
    assert (name' = name) as -> by congruence.
    exists name, pre, kw, ws, opt, x.1. simpl. by rewrite E.
  - apply task_rule_inv in H as (_ & mo & g & _ & _ & ->).
    by vm_compute in Hty.
Qed.

Lemma meeting_action_shape_witness :
  let a := {| action_type := lit "meeting";
              title := lit "Meeting with Bob Smith";
              description := lit "Schedule a meeting with Bob Smith next week";
              metadata := {[ lit "contact" := Some (lit "Bob Smith") ]} |}
  in
  ∃ name pre kw ws opt post,
    title a = lit "Meeting with " ++ name
    ∧ metadata a = {[ lit "contact" := Some name ]}
    ∧ description a = pre ++ kw ++ ws ++ opt ++ name ++ post
    ∧ kw ∈ [lit "meet"; lit "meeting"; lit "schedule"]
    ∧ ws ≠ [] ∧ forallb isspace ws = true
    ∧ (opt = [] ∨ ∃ ws', opt = lit "with" ++ ws' ∧ ws' ≠ []
                         ∧ forallb isspace ws' = true)
    ∧ Spec.cap_name name
    ∧ (lower name ∉ meeting_stoplist).
Proof.
  intros a.
  apply (meeting_action_shape
           (lit "Schedule a meeting with Bob Smith next week.") [a] a).
  - vm_compute. reflexivity.
  - apply list_elem_of_singleton. reflexivity.
  - reflexivity.
Defined.



(** * Speech recognition and the handler *)

(** ** The recognition callbacks *)

Section SpeechFacts.
Import Speech.
Implicit Types (st : state) (events : list event).

Lemma deliver_all st events :
  foldl deliver st events =
    {| all_results := all_results st ++ recognized_texts events;
       done := done st || existsb is_terminal events |}.
Proof.
  revert st. induction events as [|ev events IH]; intros st.
  - simpl. rewrite app_nil_r, orb_false_r. by destruct st.
  - cbn [foldl]. rewrite IH. unfold recognized_texts, omap.
    cbn [list_omap existsb].
    destruct ev as [[] text| |reason details]; simpl;
      rewrite <- ?app_assoc, ?orb_true_r; done.
Qed.
End SpeechFacts.

(** X13.  With a speech key set and a session that ends, the transcript
    is the texts of the results recognized as speech, in the order they
    were delivered, joined by single spaces; results with any other reason
    contribute nothing, whatever ended the session. *)
Theorem transcript_is_joined_recognized_text
    (key : option str) (events : list Speech.event) :
  Speech.env_truthy key = true →
  existsb Speech.is_terminal events = true →
  Speech.transcribe_with_speech_sdk key (Ok events) =
    Speech.Returns
      (Speech.join (lit " ") (Speech.recognized_texts events)).
Proof.
  intros Hkey Hend. unfold Speech.transcribe_with_speech_sdk.
  rewrite Hkey. cbn [negb]. cbv zeta. rewrite deliver_all. simpl.
  by rewrite Hend.
Qed.

Lemma transcript_is_joined_recognized_text_witness :
  Speech.transcribe_with_speech_sdk (Some (lit "k"))
    (Ok [ Speech.Recognized Speech.RecognizedSpeech (lit "Call Bob.");
          Speech.Recognized Speech.NoMatch (lit "");
          Speech.Recognized Speech.RecognizedSpeech (lit "Then lunch.");
          Speech.Canceled Speech.Error (lit "connection lost") ])
  = Speech.Returns (lit "Call Bob. Then lunch.").
Proof.
  apply (transcript_is_joined_recognized_text (Some (lit "k"))); reflexivity.
Defined.

(** X14.  With a speech key set, the function comes back exactly when a
    session-stopped or canceled event is delivered, and otherwise waits
    for ever; events alone never make it raise, not even a cancellation
    with reason Error. *)
Theorem recognition_ends_on_terminal_event
    (key : option str) (events : list Speech.event) :
  Speech.env_truthy key = true →
  (Speech.transcribe_with_speech_sdk key (Ok events) = Speech.Hangs
   ↔ existsb Speech.is_terminal events = false)
  ∧ (∀ e, Speech.transcribe_with_speech_sdk key (Ok events)
          ≠ Speech.Raises e).
Proof.
  intros Hkey. unfold Speech.transcribe_with_speech_sdk.
  rewrite Hkey. cbn [negb]. cbv zeta. rewrite deliver_all. simpl.
  destruct (existsb _ _); split; try done; by split.
Qed.

Lemma recognition_ends_on_terminal_event_witness :
  (Speech.transcribe_with_speech_sdk (Some (lit "k"))
     (Ok [Speech.Recognized Speech.RecognizedSpeech (lit "Hello")])
   = Speech.Hangs
   ↔ existsb Speech.is_terminal
       [Speech.Recognized Speech.RecognizedSpeech (lit "Hello")] = false)
  ∧ (∀ e, Speech.transcribe_with_speech_sdk (Some (lit "k"))
            (Ok [Speech.Recognized Speech.RecognizedSpeech (lit "Hello")])
          ≠ Speech.Raises e).
Proof.
  apply (recognition_ends_on_terminal_event (Some (lit "k"))). reflexivity.
Defined.

(** ** Processing a recording *)

(** One step of a program whose next collaborator answer is known. *)
Ltac prog_step :=
  cbn [Speech.of_result Http.py_get Http.json_truthy mbind Pipeline.prog_bind
       mret Pipeline.prog_ret fst snd Pipeline.invoke Pipeline.raise
       Pipeline.try_finally Pipeline.try_except app default from_option id
       negb orb andb str_of_exn].

(** Case analysis on the next answer, in the order the program asks. *)
Ltac next_answer :=
  match goal with
  | |- context [Http.get_json ?req] =>
      destruct (Http.get_json req) as [[]|?] eqn:?
  | |- context [?o !! lit "recording_id"] =>
      destruct (o !! lit "recording_id") eqn:?
  | |- context [?o !! lit "audio_url"] =>
      destruct (o !! lit "audio_url") eqn:?
  | |- context [Http.json_truthy ?v] => destruct (Http.json_truthy v) eqn:?
  | |- context [Pipeline.requests_get ?E ?u] =>
      destruct (Pipeline.requests_get E u) as [[? ?]|?] eqn:?
  | |- context [(?st =? 200)%Z] => destruct (Z.eqb_spec st 200)
  | |- context [Pipeline.write_temp ?E ?c] =>
      destruct (Pipeline.write_temp E c) eqn:?
  | |- context [Speech.env_truthy (Pipeline.SPEECH_KEY ?E)] =>
      destruct (Speech.env_truthy (Pipeline.SPEECH_KEY E)) eqn:?
  | |- context [Pipeline.recognize ?E ?p] =>
      destruct (Pipeline.recognize E p) eqn:?
  | |- context [Speech.done ?st] =>
      rewrite (deliver_all Speech.initial);
      cbn [Speech.all_results Speech.done Speech.initial app orb];
      match goal with
      | |- context [existsb Speech.is_terminal ?evs] =>
          destruct (existsb Speech.is_terminal evs) eqn:?
      end
  | |- context [Speech.env_truthy (Pipeline.SUPABASE_URL ?E)] =>
      destruct (Speech.env_truthy (Pipeline.SUPABASE_URL E)) eqn:?
  | |- context [Speech.env_truthy (Pipeline.SUPABASE_KEY ?E)] =>
      destruct (Speech.env_truthy (Pipeline.SUPABASE_KEY E)) eqn:?
  | |- context [Pipeline.db_update ?E ?r ?t] =>
      destruct (Pipeline.db_update E r t) as [[]|?] eqn:?
  | |- context [truthy ?t] => destruct (truthy t) eqn:?
  | |- context [extract_actions ?t] =>
      let H := fresh "Hex" in
      destruct (extract_actions_candidates t) as (? & _ & H & _);
      rewrite H;
      match goal with
      | |- context [deduplicate ?c] => destruct (deduplicate c) eqn:?
      end
  | |- context [Pipeline.db_user_id ?E ?r] =>
      destruct (Pipeline.db_user_id E r) eqn:?
  | |- context [Pipeline.db_insert ?E ?rows] =>
      destruct (Pipeline.db_insert E rows) as [[]|?] eqn:?
  | |- context [Pipeline.unlink ?E ?p] =>
      destruct (Pipeline.unlink E p) as [[]|?] eqn:?
  end.

Ltac run_program :=
  unfold Pipeline.handle, Pipeline.process_recording, Pipeline.store,
    Speech.transcribe_with_speech_sdk;
  prog_step; repeat (next_answer; prog_step).

(** A call is not in a given list of other calls. *)
Ltac not_called :=
  let H := fresh in
  intros H;
  repeat (apply elem_of_cons in H as [H|H]; [discriminate H|]);
  by apply elem_of_nil in H.

Section PipelineFacts.
Import Speech Pipeline.
Variable E : env.
Implicit Types (req : HttpRequest) (r u : json).

(** A request that passes the check of line 37 goes on to line 44. *)
Lemma handle_accepted req r u :
  accepted req r u →
  handle E req =
    try_except
      (transcript ← process_recording E r u;
       mret (json_response
               (JObj (<[ lit "success" := JBool true ]>
                      (<[ lit "recording_id" := r ]>
                       {[ lit "transcript" := JStr transcript ]})))
               200))
      (fun e =>
         json_response (JObj {[ lit "error" := JStr (str_of_exn e) ]}) 500).
Proof.
  intros (o & Hbody & Hr & Hu & Htr & Htu).
  unfold handle. rewrite Hbody. prog_step.
  rewrite Hr, Hu. prog_step. rewrite Htr, Htu. prog_step.
  by destruct (process_recording E r u) as [[] ?].
Qed.
End PipelineFacts.

(** X15.  When the download answers with a status other than 200, the
    request gets status 500 with the message "Failed to download audio: "
    and the status, and no other collaborator is called: no temporary file,
    no recognition, nothing stored. *)
Theorem download_failure_gives_500
    (E : Pipeline.env) (req : Http.HttpRequest) r u (st : Z) content :
  Pipeline.accepted req r u →
  Pipeline.requests_get E u = Ok (st, content) →
  st ≠ 200%Z →
  Pipeline.handle E req =
    (Speech.Returns
       (Http.json_response
          (Http.JObj {[ lit "error" :=
                          Http.JStr (lit "Failed to download audio: "
                                     ++ lit (pretty st)) ]})
          500),
     [Pipeline.Get u]).
Proof.
  intros Hacc Hget Hst. rewrite (handle_accepted E req r u Hacc).
  unfold Pipeline.process_recording. rewrite Hget. prog_step.
  destruct (Z.eqb_spec st 200); [done|]. by prog_step.
Qed.

Lemma download_failure_gives_500_witness :
  Pipeline.handle
    (Pipeline.sample_env 404 (Some (lit "k")) Pipeline.sample_events
       (Some (lit "s")) true)
    Pipeline.sample_request
  = (Speech.Returns
       (Http.json_response
          (Http.JObj {[ lit "error" :=
                          Http.JStr (lit "Failed to download audio: 404") ]})
          500),
     [Pipeline.Get (Http.JStr (lit "https://x/a.webm"))]).
Proof.
  apply (download_failure_gives_500 _ _ (Http.JStr (lit "rec-1"))
           (Http.JStr (lit "https://x/a.webm")) 404 (lit "RIFF")).
  - eexists. repeat split.
  - reflexivity.
  - discriminate.
Defined.

(** X16.  Once the temporary file is written, every way the handler comes
    back ends with the file being unlinked, whatever the recognition and
    the store did; only when the recognition never ends no unlink is
    made. *)
Theorem temp_file_is_unlinked
    (E : Pipeline.env) (req : Http.HttpRequest) r u content path :
  Pipeline.accepted req r u →
  Pipeline.requests_get E u = Ok (200%Z, content) →
  Pipeline.write_temp E content = Ok path →
  ((Pipeline.handle E req).1 ≠ Speech.Hangs →
   last (Pipeline.handle E req).2 = Some (Pipeline.Unlink path))
  ∧ ((Pipeline.handle E req).1 = Speech.Hangs →
     ∀ p, Pipeline.Unlink p ∉ (Pipeline.handle E req).2).
Proof.
  intros Hacc Hget Htemp. rewrite (handle_accepted E req r u Hacc).
  unfold Pipeline.process_recording. rewrite Hget. prog_step.
  rewrite Htemp. run_program.
  all: split; [done|]; try done; intros _ p; not_called.
Qed.

Lemma temp_file_is_unlinked_witness :
  let E := Pipeline.sample_env 200 (Some (lit "k")) Pipeline.sample_events
             (Some (lit "s")) false in
  ((Pipeline.handle E Pipeline.sample_request).1 ≠ Speech.Hangs →
   last (Pipeline.handle E Pipeline.sample_request).2
     = Some (Pipeline.Unlink (lit "/tmp/tmpab12.webm")))
  ∧ ((Pipeline.handle E Pipeline.sample_request).1 = Speech.Hangs →
     ∀ p, Pipeline.Unlink p ∉ (Pipeline.handle E Pipeline.sample_request).2).
Proof.
  intros E.
  apply (temp_file_is_unlinked E _ (Http.JStr (lit "rec-1"))
           (Http.JStr (lit "https://x/a.webm")) (lit "RIFF")).
  - eexists. repeat split.
  - reflexivity.
  - reflexivity.
Defined.

(** X17.  Rows are inserted only for a transcript that yields actions, and
    after the transcript itself was stored: the calls of such a request
    are, in this order, the download, the temporary file, the
    transcription, the update of the recording with the transcript, the
    read of its user id, the insert and the unlink.  The rows are the
    actions [extract_actions] returns for the joined recognized text, each
    with the request's recording id, the user id read back from the
    recording, and the status "pending". *)
Theorem stored_rows
    (E : Pipeline.env) (req : Http.HttpRequest) r u rows :
  Pipeline.accepted req r u →
  Pipeline.Insert rows ∈ (Pipeline.handle E req).2 →
  ∃ content path events uid actions,
    Pipeline.requests_get E u = Ok (200%Z, content)
    ∧ Pipeline.write_temp E content = Ok path
    ∧ Pipeline.recognize E path = Ok events
    ∧ extract_actions
        (Speech.join (lit " ") (Speech.recognized_texts events)) = Ok actions
    ∧ actions ≠ []
    ∧ Pipeline.db_user_id E r = Ok uid
    ∧ rows = Pipeline.annotate r uid actions
    ∧ (Pipeline.handle E req).2 =
        [ Pipeline.Get u; Pipeline.WriteTemp content;
          Pipeline.Transcribe path;
          Pipeline.Update r
            (Speech.join (lit " ") (Speech.recognized_texts events));
          Pipeline.SelectUser r; Pipeline.Insert rows;
          Pipeline.Unlink path ]
    ∧ (∀ row, row ∈ rows →
         Pipeline.status row = lit "pending"
         ∧ Pipeline.recording_id row = r
         ∧ Pipeline.user_id row = uid
         ∧ Pipeline.base row ∈ actions).
Proof.
  intros Hacc. rewrite (handle_accepted E req r u Hacc).
  run_program.
  all: try not_called.
  all: intros Hins.
  all: match goal with
       | |- context [Pipeline.Insert (Pipeline.annotate ?rid ?uid ?actions)] =>
           assert (rows = Pipeline.annotate rid uid actions) as ->
       end.
  all: try (repeat (apply elem_of_cons in Hins as [Hins|Hins];
                    [first [discriminate Hins|by injection Hins]|]);
            by apply elem_of_nil in Hins).
  all: subst; eexists _, _, _, _, _.
  all: repeat (split; [first [eassumption|reflexivity|done]|]).
  all: intros row (a' & -> & Ha')%list_elem_of_fmap; done.
Qed.

Lemma stored_rows_witness :
  let E := Pipeline.sample_env 200 (Some (lit "k")) Pipeline.sample_events
             (Some (lit "s")) true in
  let r := Http.JStr (lit "rec-1") in
  let rows :=
    Pipeline.annotate r (Http.JStr (lit "user-7"))
      [ {| action_type := lit "call"; title := lit "Call Sarah";
           description := lit "Please call Sarah tomorrow";
           metadata := {[ lit "contact" := Some (lit "Sarah") ]} |};
        {| action_type := lit "task";
           title := lit "finish the budget report";
           description := lit "I must finish the budget report";
           metadata := ∅ |} ] in
  ∃ content path events uid actions,
    Pipeline.requests_get E (Http.JStr (lit "https://x/a.webm"))
      = Ok (200%Z, content)
    ∧ Pipeline.write_temp E content = Ok path
    ∧ Pipeline.recognize E path = Ok events
    ∧ extract_actions
        (Speech.join (lit " ") (Speech.recognized_texts events)) = Ok actions
    ∧ actions ≠ []
    ∧ Pipeline.db_user_id E r = Ok uid
    ∧ rows = Pipeline.annotate r uid actions
    ∧ (Pipeline.handle E Pipeline.sample_request).2 =
        [ Pipeline.Get (Http.JStr (lit "https://x/a.webm"));
          Pipeline.WriteTemp content; Pipeline.Transcribe path;
          Pipeline.Update r
            (Speech.join (lit " ") (Speech.recognized_texts events));
          Pipeline.SelectUser r; Pipeline.Insert rows;
          Pipeline.Unlink path ]
    ∧ (∀ row, row ∈ rows →
         Pipeline.status row = lit "pending"
         ∧ Pipeline.recording_id row = r
         ∧ Pipeline.user_id row = uid
         ∧ Pipeline.base row ∈ actions).
Proof.
  intros E r rows.
  apply (stored_rows E Pipeline.sample_request r
           (Http.JStr (lit "https://x/a.webm")) rows).
  - eexists. repeat split.
  - vm_compute. do 5 right. left.
Defined.

(** X18.  Unless both SUPABASE_URL and SUPABASE_KEY are set to non-empty
    values, the handler makes no call to the store: no update, no select
    and no insert, whatever the request and the other collaborators. *)
Theorem no_store_without_configuration
    (E : Pipeline.env) (req : Http.HttpRequest) :
  Speech.env_truthy (Pipeline.SUPABASE_URL E)
    && Speech.env_truthy (Pipeline.SUPABASE_KEY E) = false →
  (∀ r t, Pipeline.Update r t ∉ (Pipeline.handle E req).2)
  ∧ (∀ r, Pipeline.SelectUser r ∉ (Pipeline.handle E req).2)
  ∧ (∀ rows, Pipeline.Insert rows ∉ (Pipeline.handle E req).2).
Proof.
  run_program.
  all: intros Hcfg; try discriminate Hcfg.
  all: split; [intros ? ?; not_called|split; intros ?; not_called].
Qed.

Lemma no_store_without_configuration_witness :
  let E := Pipeline.sample_env 200 (Some (lit "k")) Pipeline.sample_events
             None true in
  (∀ r t, Pipeline.Update r t ∉ (Pipeline.handle E Pipeline.sample_request).2)
  ∧ (∀ r, Pipeline.SelectUser r
          ∉ (Pipeline.handle E Pipeline.sample_request).2)
  ∧ (∀ rows, Pipeline.Insert rows
             ∉ (Pipeline.handle E Pipeline.sample_request).2).
Proof.
  intros E. apply (no_store_without_configuration E). reflexivity.
Defined.

(** X19.  When inserting the rows fails, the request is answered with
    status 500, yet the transcript update made before it stays: the only
    call that follows the failed insert is the unlink of the temporary
    file. *)
Theorem failed_insert_answers_500
    (E : Pipeline.env) (req : Http.HttpRequest) r u rows e :
  Pipeline.accepted req r u →
  Pipeline.Insert rows ∈ (Pipeline.handle E req).2 →
  Pipeline.db_insert E rows = Raise e →
  ∃ msg transcript path before,
    (Pipeline.handle E req).1 =
      Speech.Returns
        (Http.json_response (Http.JObj {[ lit "error" := Http.JStr msg ]}) 500)
    ∧ (Pipeline.handle E req).2 =
        before ++ [Pipeline.Insert rows; Pipeline.Unlink path]
    ∧ Pipeline.Update r transcript ∈ before.
Proof.
  intros Hacc Hins Hfail. revert Hins.
  rewrite (handle_accepted E req r u Hacc).
  run_program.
  all: try not_called.
  all: intros Hins.
  all: match goal with
       | |- context [Pipeline.Insert (Pipeline.annotate ?rid ?uid ?actions)] =>
           assert (rows = Pipeline.annotate rid uid actions) as ->
       end.
  all: try (repeat (apply elem_of_cons in Hins as [Hins|Hins];
                    [first [discriminate Hins|by injection Hins]|]);
            by apply elem_of_nil in Hins).
  all: try congruence.
  all: eexists _, _, _, [_; _; _; _; _].
  all: split; [reflexivity|]; split; [reflexivity|]; do 3 right; left.
Qed.

Lemma failed_insert_answers_500_witness :
  let E := Pipeline.sample_env 200 (Some (lit "k")) Pipeline.sample_events
             (Some (lit "s")) false in
  let r := Http.JStr (lit "rec-1") in
  let rows :=
    Pipeline.annotate r (Http.JStr (lit "user-7"))
      [ {| action_type := lit "call"; title := lit "Call Sarah";
           description := lit "Please call Sarah tomorrow";
           metadata := {[ lit "contact" := Some (lit "Sarah") ]} |};
        {| action_type := lit "task";
           title := lit "finish the budget report";
           description := lit "I must finish the budget report";
           metadata := ∅ |} ] in
  ∃ msg transcript path before,
    (Pipeline.handle E Pipeline.sample_request).1 =
      Speech.Returns
        (Http.json_response (Http.JObj {[ lit "error" := Http.JStr msg ]}) 500)
    ∧ (Pipeline.handle E Pipeline.sample_request).2 =
        before ++ [Pipeline.Insert rows; Pipeline.Unlink path]
    ∧ Pipeline.Update r transcript ∈ before.
Proof.
  intros E r rows.
  apply (failed_insert_answers_500 E Pipeline.sample_request r
           (Http.JStr (lit "https://x/a.webm")) rows
           (Exception (lit "insert failed"))).
  - eexists. repeat split.
  - vm_compute. do 5 right. left.
  - reflexivity.
Defined.

(** Consistency of the two embeddings of the handler: with its
    collaborators spelled out it answers what the handler with lines 44-95
    taken as a function answers, for any such function that agrees with
    the outcome of those lines. *)
Theorem handle_agrees_with_transcribe_audio
    (E : Pipeline.env) (process : Http.json → Http.json → result str)
    (req : Http.HttpRequest) :
  (∀ r u, (Pipeline.process_recording E r u).1
          = Speech.of_result (process r u)) →
  (Pipeline.handle E req).1
    = Speech.Returns (Http.transcribe_audio process req).
Proof.
  intros Hagree.
  unfold Pipeline.handle, Http.transcribe_audio, Http.try_block.
  destruct (Http.get_json req) as [v|e]; [|done].
  prog_step. cbn [mbind result_bind].
  destruct v as [| | | | | |o]; try done.
  prog_step. cbn [mbind result_bind].
  set (r := default Http.JNull (o !! lit "recording_id")).
  set (u := default Http.JNull (o !! lit "audio_url")).
  destruct (negb (Http.json_truthy r) || negb (Http.json_truthy u)); [done|].
  specialize (Hagree r u).
  destruct (Pipeline.process_recording E r u) as [oc calls].
  cbn [fst] in Hagree. subst oc.
  by destruct (process r u).
Qed.

Lemma handle_agrees_with_transcribe_audio_witness :
  (Pipeline.handle
     (Pipeline.sample_env 503 None [] None true) Pipeline.sample_request).1
  = Speech.Returns
      (Http.transcribe_audio
         (fun _ _ => Raise (Exception (lit "Failed to download audio: 503")))
         Pipeline.sample_request).
Proof.
  apply (handle_agrees_with_transcribe_audio
           (Pipeline.sample_env 503 None [] None true)).
  intros r u. reflexivity.
Defined.

(** X20.  No exception leaves the handler.  Every response has status 200,
    400 or 500 and the JSON mimetype; a 400 is given before any
    collaborator is called; a 200 is given only when the request was
    accepted and download, temporary file, recognition and unlink all went
    through, and then carries the request's recording id and the recognized
    texts joined by spaces. *)
Theorem handler_responses (E : Pipeline.env) (req : Http.HttpRequest) :
  (∀ e, (Pipeline.handle E req).1 ≠ Speech.Raises e)
  ∧ ∀ resp,
      (Pipeline.handle E req).1 = Speech.Returns resp →
      Http.status_code resp ∈ [200; 400; 500]%Z
      ∧ Http.mimetype resp = lit "application/json"
      ∧ (Http.status_code resp = 400%Z → (Pipeline.handle E req).2 = [])
      ∧ (Http.status_code resp = 200%Z →
         ∃ r u content path events,
           Pipeline.accepted req r u
           ∧ Pipeline.requests_get E u = Ok (200%Z, content)
           ∧ Pipeline.write_temp E content = Ok path
           ∧ Pipeline.recognize E path = Ok events
           ∧ existsb Speech.is_terminal events = true
           ∧ Pipeline.unlink E path = Ok ()
           ∧ Http.body resp =
               Http.JObj
                 (<[ lit "success" := Http.JBool true ]>
                  (<[ lit "recording_id" := r ]>
                   {[ lit "transcript" :=
                        Http.JStr (Speech.join (lit " ")
                                     (Speech.recognized_texts events)) ]}))).
Proof.
  run_program.
  all: split; [done|]; intros resp [= <-].
  all: cbn [Http.status_code Http.mimetype Http.body Http.json_response].
  all: split; [first [by left|by right; left|by right; right; left]|].
  all: split; [done|]; split; [done|]; try done.
  all: intros _; subst; eexists _, _, _, _, _.
  all: split; [eexists; repeat split; eassumption|].
  all: repeat (split; [first [eassumption|reflexivity]|]); reflexivity.
Qed.

Lemma handler_responses_witness :
  let E := Pipeline.sample_env 200 (Some (lit "k")) Pipeline.sample_events
             (Some (lit "s")) true in
  ∃ r u content path events,
    Pipeline.accepted Pipeline.sample_request r u
    ∧ Pipeline.requests_get E u = Ok (200%Z, content)
    ∧ Pipeline.write_temp E content = Ok path
    ∧ Pipeline.recognize E path = Ok events
    ∧ existsb Speech.is_terminal events = true
    ∧ Pipeline.unlink E path = Ok ()
    ∧ Http.body
        (Http.json_response
           (Http.JObj
              (<[ lit "success" := Http.JBool true ]>
               (<[ lit "recording_id" := Http.JStr (lit "rec-1") ]>
                {[ lit "transcript" :=
                     Http.JStr
                       (lit "Please call Sarah tomorrow. I must finish the budget report.") ]})))
           200)
      = Http.JObj
          (<[ lit "success" := Http.JBool true ]>
           (<[ lit "recording_id" := r ]>
            {[ lit "transcript" :=
                 Http.JStr (Speech.join (lit " ")
                              (Speech.recognized_texts events)) ]})).
Proof.
  intros E.
  destruct (proj2 (handler_responses E Pipeline.sample_request)
              (Http.json_response
                 (Http.JObj
                    (<[ lit "success" := Http.JBool true ]>
                     (<[ lit "recording_id" := Http.JStr (lit "rec-1") ]>
                      {[ lit "transcript" :=
                           Http.JStr
                             (lit "Please call Sarah tomorrow. I must finish the budget report.") ]})))
                 200))
    as (_ & _ & _ & H200).
  - vm_compute. reflexivity.
  - apply H200. reflexivity.
Defined.

(** X21.  An accepted request whose audio was downloaded and written to
    the temporary file, with a speech key that is set and a recognizer that
    delivers neither a session-stopped nor a canceled event, is never
    answered: the handler stays in the wait loop of lines 159-160, after
    the download, the temporary file and the start of the transcription,
    and neither stores anything nor unlinks the temporary file. *)
Theorem handler_waits_without_terminal_event
    (E : Pipeline.env) (req : Http.HttpRequest) r u content path events :
  Pipeline.accepted req r u →
  Pipeline.requests_get E u = Ok (200%Z, content) →
  Pipeline.write_temp E content = Ok path →
  Speech.env_truthy (Pipeline.SPEECH_KEY E) = true →
  Pipeline.recognize E path = Ok events →
  existsb Speech.is_terminal events = false →
  (Pipeline.handle E req).1 = Speech.Hangs
  ∧ (Pipeline.handle E req).2 =
      [Pipeline.Get u; Pipeline.WriteTemp content; Pipeline.Transcribe path].
Proof.
  intros Hacc Hget Htemp Hkey Hrec Hend.
  rewrite (handle_accepted E req r u Hacc).
  unfold Pipeline.process_recording, Speech.transcribe_with_speech_sdk.
  rewrite Hget. prog_step. rewrite Htemp. prog_step.
  rewrite Hkey, Hrec. prog_step. cbv zeta.
  rewrite (deliver_all Speech.initial).
  cbn [Speech.done Speech.initial orb]. rewrite Hend. by prog_step.
Qed.

Lemma handler_waits_without_terminal_event_witness :
  let E := Pipeline.sample_env 200 (Some (lit "k"))
             [Speech.Recognized Speech.RecognizedSpeech (lit "Hello")]
             None true in
  (Pipeline.handle E Pipeline.sample_request).1 = Speech.Hangs
  ∧ (Pipeline.handle E Pipeline.sample_request).2 =
      [ Pipeline.Get (Http.JStr (lit "https://x/a.webm"));
        Pipeline.WriteTemp (lit "RIFF");
        Pipeline.Transcribe (lit "/tmp/tmpab12.webm") ].
Proof.
  intros E.
  apply (handler_waits_without_terminal_event E Pipeline.sample_request
           (Http.JStr (lit "rec-1")) (Http.JStr (lit "https://x/a.webm"))
           (lit "RIFF") (lit "/tmp/tmpab12.webm")
           [Speech.Recognized Speech.RecognizedSpeech (lit "Hello")]).
  - eexists. repeat split.
  - reflexivity.
  - reflexivity.
  - reflexivity.
  - reflexivity.
  - reflexivity.
Defined.

(** ** The e-mail pattern *)

(** X22.  On a sentence handed to it directly, the Email block acts only
    on an address of the shape local@domain.tld: a non-empty local part
    and domain over the pattern's character sets and a top-level label of
    at least two letters.  It then appends the action "Email <address>"
    with metadata {recipient: address} and ends the iteration. *)
Theorem email_block_shape (sentence : str) (actions : list action) mo :
  contains (lit "email") (lower sentence)
    || contains (lit "send") (lower sentence) = true →
  search email_re sentence = Some mo →
  ∃ address pre post local domain tld,
    group1 mo = Some address
    ∧ sentence = pre ++ address ++ post
    ∧ address = local ++ "@"%char :: domain ++ "."%char :: tld
    ∧ local ≠ [] ∧ domain ≠ [] ∧ 2 ≤ length tld
    ∧ forallb (atom_ok (Set_ (alnum ++ [One "."; One "_"; One "%"; One "+";
                                        One "-"]))) local = true
    ∧ forallb (atom_ok (Set_ (alnum ++ [One "."; One "-"]))) domain = true
    ∧ forallb (atom_ok (Set_ [Range "a" "z"; Range "A" "Z"])) tld = true
    ∧ email_block sentence (lower sentence) actions =
        Continue (actions ++ [
          {| action_type := lit "email";
             title := lit "Email " ++ address;
             description := sentence;
             metadata := {[ lit "recipient" := Some address ]} |} ]).
Proof.
  intros Hgate Hsearch.
  destruct (search_sound _ _ _ Hsearch) as (pre & suf & x & Es & Hx & Hg).
  unfold email_re in Hx. apply m_group in Hx as (address & Esuf & Hx2 & Hlang).
  unfold cat, plus in Hlang. cbn [foldr lang] in Hlang.
  destruct Hlang as (local & w1 & Ea & (Hlocal & Hllen & _)
                     & at_ & w2 & -> & (c1 & -> & Hc1)
                     & domain & w3 & -> & (Hdomain & Hdlen & _)
                     & dot & w4 & -> & (c2 & -> & Hc2)
                     & tld & w5 & -> & (Htld & Htlen & _) & ->).
  apply bool_decide_eq_true in Hc1 as ->.
  apply bool_decide_eq_true in Hc2 as ->.
  rewrite app_nil_r in Ea.
  exists address, pre, x.1, local, domain, tld.
  split; [by rewrite Hg|]. split; [by rewrite Es, Esuf|].
  split; [done|]. split; [by apply spaces_nonempty|].
  split; [by apply spaces_nonempty|]. do 4 (split; [done|]).
  unfold email_block. by rewrite Hgate, Hsearch, Hg, Hx2.
Qed.

Lemma email_block_shape_witness :
  ∃ address pre post local domain tld,
    Some (lit "john.doe@example.com") = Some address
    ∧ lit "Please email john.doe@example.com about it"
      = pre ++ address ++ post
    ∧ address = local ++ "@"%char :: domain ++ "."%char :: tld
    ∧ local ≠ [] ∧ domain ≠ [] ∧ 2 ≤ length tld
    ∧ forallb (atom_ok (Set_ (alnum ++ [One "."; One "_"; One "%"; One "+";
                                        One "-"]))) local = true
    ∧ forallb (atom_ok (Set_ (alnum ++ [One "."; One "-"]))) domain = true
    ∧ forallb (atom_ok (Set_ [Range "a" "z"; Range "A" "Z"])) tld = true
    ∧ email_block (lit "Please email john.doe@example.com about it")
        (lower (lit "Please email john.doe@example.com about it")) [] =
        Continue ([] ++ [
          {| action_type := lit "email";
             title := lit "Email " ++ address;
             description := lit "Please email john.doe@example.com about it";
             metadata := {[ lit "recipient" := Some address ]} |} ]).
Proof.
  apply (email_block_shape (lit "Please email john.doe@example.com about it")
           [] (Match (Some (lit "john.doe@example.com")))).
  - vm_compute. reflexivity.
  - vm_compute. reflexivity.
Defined.
